(** * Toy de Bruijn assembler of [Project_L5/L5/2ex.py]

    A shallow embedding of [make_graph], [walk_contigs] and [run_assembly],
    and of the functions around them ([build_sequence], [gc_percent],
    [make_reads], the FASTA body that [main] writes), followed by the
    properties of the assembler that the specification states about them
    and by further properties read off the code.

    Python values are modelled as follows.
    - [int] is [Z]; [str] is [string]; [len] is [Py.len].
    - [dict] / [defaultdict] / [Counter] are association lists kept in
      insertion order: a key that is assigned again keeps its position, a
      new key goes to the end.  [graph.keys()] and [Counter.most_common]
      observe that order, so it is part of the model.
    - [set] is a [gset string].
    - a raised exception is the [Raise] case of [result], or the
      [ZeroDivisionError] or [OverflowError] case of [div_result].
    - a float is a rational: the exact quotient in [gc_percent] and in the
      half of the total of [n50_of]; in [make_reads], where the value is
      rounded to an integer, the double that CPython computes.
    - [random.randint] is any function of a generator state that returns
      an integer and the next state. *)

From Stdlib Require Import ZArith QArith Qround Qpower Lqa String Ascii List Lia.
From stdpp Require Import gmap strings list sorting.

Local Open Scope string_scope.
Local Open Scope Z_scope.

(** ** Exceptions *)

Inductive exn : Set := IndexError.

Inductive result (A : Type) : Type :=
| Ok (a : A)
| Raise (e : exn).
Arguments Ok {A} a.
Arguments Raise {A} e.

Definition rbind {A B} (r : result A) (f : A -> result B) : result B :=
  match r with
  | Ok a => f a
  | Raise e => Raise e
  end.

Notation "x <-! r ;; k" := (rbind r (fun x => k))
  (at level 100, r at next level, right associativity).

(** A value, or the exception of a division: [ZeroDivisionError] for a
    divisor 0, [OverflowError] for a quotient of integers that is too
    large for a float. *)
Inductive div_result (A : Type) : Type :=
| Value (a : A)
| ZeroDivisionError
| OverflowError.
Arguments Value {A} a.
Arguments ZeroDivisionError {A}.
Arguments OverflowError {A}.

(** ** Python strings *)

Module Py.

Definition len (s : string) : Z := Z.of_nat (String.length s).

(** Normalisation of a slice bound against a length, as CPython's
    [PySlice_AdjustIndices] does for step 1. *)
Definition adjust_index (i n : Z) : Z :=
  if i <? 0 then Z.max (i + n) 0 else Z.min i n.

(** [s[lo:hi]] *)
Definition slice (s : string) (lo hi : Z) : string :=
  let lo' := adjust_index lo (len s) in
  let hi' := adjust_index hi (len s) in
  substring (Z.to_nat lo') (Z.to_nat (hi' - lo')) s.

(** [s[:hi]] and [s[lo:]] *)
Definition slice_to (s : string) (hi : Z) : string := slice s 0 hi.
Definition slice_from (s : string) (lo : Z) : string := slice s lo (len s).

(** [s[i]], which raises [IndexError] out of range. *)
Definition getitem (s : string) (i : Z) : result string :=
  let j := if i <? 0 then i + len s else i in
  if (j <? 0) || (len s <=? j) then Raise IndexError
  else Ok (substring (Z.to_nat j) 1 s).

(** [c in s] for a one-character [c]. *)
Fixpoint contains (c : ascii) (s : string) : bool :=
  match s with
  | EmptyString => false
  | String d s' => if Ascii.eqb c d then true else contains c s'
  end.

(** [range(n)] *)
Definition range (n : Z) : list Z :=
  List.map Z.of_nat (List.seq 0 (Z.to_nat n)).

(** [sum(l)] *)
Definition sum (l : list Z) : Z := fold_right Z.add 0 l.

(** [s * n]: [n] copies of [s], none for [n <= 0]. *)
Definition mul (s : string) (n : Z) : string :=
  Nat.iter (Z.to_nat n) (String.append s) "".

(** [round(q)] of a float given by its value: to the nearest integer, a
    tie to the even one. *)
Definition round (q : Q) : Z :=
  let f := Qfloor q in
  match Qcompare (q - inject_Z f) (1 # 2) with
  | Lt => f
  | Gt => f + 1
  | Eq => if Z.even f then f else f + 1
  end.

(** [floor (log2 (a / b))] for positive [a] and [b]. *)
Definition log2_quotient (a b : positive) : Z :=
  let e := Z.log2 (Z.pos a) - Z.log2 (Z.pos b) in
  if Qle_bool (2 ^ e) (Z.pos a # b) then e else e - 1.

(** The double nearest to [a / b], a tie going to the even significand
    (IEEE 754 binary64: 53 significant bits, no unit in the last place
    below [2 ^ -1074]); [None] when the rounded value is beyond the
    largest double. *)
Definition nearest_double (a b : positive) : option Q :=
  let q := Z.pos a # b in
  let ulp := (2 ^ Z.max (log2_quotient a b - 52) (-1074))%Q in
  let x := (inject_Z (round (q / ulp)) * ulp)%Q in
  if Qle_bool (2 ^ 1024) x then None else Some x.

(** [a / b] for two [int]s: the correctly rounded quotient, as a double.
    The divisor is tested first; [OverflowError] is "integer division
    result too large for a float". *)
Definition true_div (a b : Z) : div_result Q :=
  match b, a with
  | 0, _ => ZeroDivisionError
  | _, 0 => Value 0%Q
  | Z.pos b', Z.pos a' | Z.neg b', Z.neg a' =>
      match nearest_double a' b' with
      | Some x => Value x
      | None => OverflowError
      end
  | Z.pos b', Z.neg a' | Z.neg b', Z.pos a' =>
      match nearest_double a' b' with
      | Some x => Value (- x)%Q
      | None => OverflowError
      end
  end.

(** [range(start, stop, step)] for a positive [step]. *)
Definition range_step (start stop step : Z) : list Z :=
  List.map (fun i => start + Z.of_nat i * step)
           (List.seq 0 (Z.to_nat ((stop - start + step - 1) / step))).

End Py.

(** ** Insertion-ordered dictionaries *)

Section Dict.
Context {V : Type}.

Definition dict := list (string * V).

(** [d.get(k)] *)
Fixpoint dict_get (d : dict) (k : string) : option V :=
  match d with
  | [] => None
  | (k', v) :: d' => if String.eqb k k' then Some v else dict_get d' k
  end.

(** [d[k] = v] *)
Fixpoint dict_set (d : dict) (k : string) (v : V) : dict :=
  match d with
  | [] => [(k, v)]
  | (k', v') :: d' =>
      if String.eqb k k' then (k', v) :: d' else (k', v') :: dict_set d' k v
  end.

(** [d.keys()] *)
Definition dict_keys (d : dict) : list string := List.map fst d.

End Dict.
Arguments dict V : clear implicits.

(** A [Counter]: missing keys read as [0]. *)
Definition Counter := dict Z.

Definition counter_get (c : Counter) (k : string) : Z :=
  match dict_get c k with
  | Some n => n
  | None => 0
  end.

(** [c[k] += 1] *)
Definition counter_incr (c : Counter) (k : string) : Counter :=
  dict_set c k (counter_get c k + 1).

(** [max(items, key=itemgetter(1))]: the first item of greatest count. *)
Fixpoint max_by_count (best : string * Z) (items : list (string * Z)) : string * Z :=
  match items with
  | [] => best
  | x :: rest =>
      if x.2 >? best.2 then max_by_count x rest else max_by_count best rest
  end.

(** [c.most_common(1)], that is [heapq.nlargest(1, c.items(), key=count)],
    which for [n = 1] is [max] over the items in insertion order. *)
Definition most_common_1 (c : Counter) : list (string * Z) :=
  match c with
  | [] => []
  | x :: rest => [max_by_count x rest]
  end.

(** A [defaultdict(Counter)]: the adjacency mapping. *)
Definition Graph := dict Counter.

(** [edges[a][b] += 1]; looking up a missing [a] creates its [Counter]. *)
Definition graph_incr (edges : Graph) (a b : string) : Graph :=
  let ca := match dict_get edges a with Some c => c | None => [] end in
  dict_set edges a (counter_incr ca b).

(** ** [make_graph] *)

Record graph_state := GraphState {
  edges : Graph;
  indeg : Counter;
  outdeg : Counter
}.

Definition empty_state : graph_state := GraphState [] [] [].

(** Body of the inner loop, for the window starting at [i]. *)
Definition add_window (r : string) (k : Z) (st : graph_state) (i : Z) : graph_state :=
  let frag := Py.slice r i (i + k) in
  if Py.contains "N"%char frag then st
  else
    let a := Py.slice_to frag (-1) in
    let b := Py.slice_from frag 1 in
    GraphState (graph_incr (edges st) a b)
               (counter_incr (indeg st) b)
               (counter_incr (outdeg st) a).

(** Body of the outer loop, for the read [r]. *)
Definition add_read (k : Z) (st : graph_state) (r : string) : graph_state :=
  if Py.len r <? k then st
  else fold_left (add_window r k) (Py.range (Py.len r - k + 1)) st.

Definition make_graph (reads : list string) (k : Z) : graph_state :=
  fold_left (add_read k) reads empty_state.

(** ** [walk_contigs] *)

(** The fixed bound of the [while] loop on the length of a contig. *)
Definition LENGTH_CAP : Z := 2000000.

Section Walk.
(** The traversal is written once for any bound [cap]; the program only
    ever runs it at [LENGTH_CAP]. *)
Variable cap : Z.
Variable graph : Graph.

(** The [while graph.get(cur)] loop.  [None] means that [fuel] iterations
    were not enough; otherwise the loop ended, with the contig and the
    visited set, or raised. *)
Fixpoint walk_loop (fuel : nat) (cur seq : string) (visited : gset string)
  : option (result (string * gset string)) :=
  match fuel with
  | O => None
  | S fuel' =>
      match dict_get graph cur with
      | None | Some [] => Some (Ok (seq, visited))
      | Some c =>
          match most_common_1 c with
          | [] => Some (Raise IndexError)
          | (nxt, _) :: _ =>
              match Py.getitem nxt (-1) with
              | Raise e => Some (Raise e)
              | Ok ch =>
                  let seq := seq ++ ch in
                  let cur := nxt in
                  if decide (cur ∈ visited) then Some (Ok (seq, visited))
                  else
                    let visited := {[cur]} ∪ visited in
                    if Py.len seq >? cap then Some (Ok (seq, visited))
                    else walk_loop fuel' cur seq visited
              end
          end
      end
  end.

(** The [for start in list(graph.keys())] loop over the remaining keys. *)
Fixpoint walk_starts (fuel : nat) (starts : list string)
    (contigs : list string) (visited : gset string)
  : option (result (list string)) :=
  match starts with
  | [] => Some (Ok contigs)
  | start :: starts' =>
      if decide (start ∈ visited) then walk_starts fuel starts' contigs visited
      else
        match walk_loop fuel start start ({[start]} ∪ visited) with
        | None => None
        | Some (Raise e) => Some (Raise e)
        | Some (Ok (seq, visited')) =>
            walk_starts fuel starts' (contigs ++ [seq])%list visited'
        end
  end.

Definition walk_contigs_fuel (fuel : nat) : option (result (list string)) :=
  walk_starts fuel (dict_keys graph) [] ∅.

End Walk.

(** Every node that can be walked into. *)
Definition targets (graph : Graph) : list string :=
  flat_map (fun e => dict_keys e.2) graph.

Definition target_set (graph : Graph) : gset string := list_to_set (targets graph).

(** Enough iterations for any walk: each one that does not end the loop
    marks a target that was not marked before. *)
Definition walk_bound (graph : Graph) : nat := S (size (target_set graph)).

(** The traversal as a function of the graph alone.  The loop always ends
    within [walk_bound] iterations ([walk_contigs_fuel_total] below), so
    the [None] case does not occur. *)
Definition walk_contigs_cap (cap : Z) (graph : Graph) : result (list string) :=
  match walk_contigs_fuel cap graph (walk_bound graph) with
  | Some r => r
  | None => Ok []
  end.

Definition walk_contigs (graph : Graph) : result (list string) :=
  walk_contigs_cap LENGTH_CAP graph.

(** ** [run_assembly] *)

(** [sorted(l, reverse=True)] on integers. *)
Definition sorted_desc (l : list Z) : list Z := merge_sort Z.ge l.

(** The [for L in lengths] loop; [0] is the initial [n50], kept when the
    loop ends without [break]. *)
Fixpoint n50_loop (half : Q) (acc : Z) (lengths : list Z) : Z :=
  match lengths with
  | [] => 0
  | L :: rest =>
      let acc := acc + L in
      if Qle_bool half (inject_Z acc) then L else n50_loop half acc rest
  end.

(** Lines 113-122.  [half] is a float in the program; it is the exact
    rational here, which agrees with the float as long as the total length
    is below 2^53. *)
Definition n50_of (contigs : list string) : Z :=
  let lengths := sorted_desc (List.map Py.len contigs) in
  match lengths with
  | [] => 0
  | _ => n50_loop (inject_Z (Py.sum lengths) / 2)%Q 0 lengths
  end.

(** [run_assembly] without its timing: the pair [(n50, len(contigs))]. *)
Definition run_assembly (reads : list string) (k : Z) : result (Z * Z) :=
  let graph := edges (make_graph reads k) in
  contigs <-! walk_contigs graph ;;
  Ok (n50_of contigs, Z.of_nat (length contigs)).

(** ** [build_sequence] *)

Definition build_sequence (length : Z) (motif : string) : div_result string :=
  if Py.len motif =? 0 then ZeroDivisionError
  else
    let reps := length / Py.len motif + 1 in
    Value (Py.slice_to (Py.mul motif reps) length).

(** ** [gc_percent] *)

(** [sum(1 for b in seq if b in symbols)] *)
Fixpoint count_in (symbols : list ascii) (seq : string) : Z :=
  match seq with
  | EmptyString => 0
  | String b seq' =>
      (if existsb (Ascii.eqb b) symbols then 1 else 0) + count_in symbols seq'
  end.

(** The result is a float in the program; it is the exact quotient here,
    which the program rounds to the nearest double. *)
Definition gc_percent (seq : string) : Q :=
  let gc := count_in ["G"; "C"]%char seq in
  let at_ := count_in ["A"; "T"]%char seq in
  let tot := gc + at_ in
  if tot =? 0 then 0%Q else (100 * inject_Z gc / inject_Z tot)%Q.

(** ** [make_reads] *)

Section RandomSource.
(** The generator behind [random.randint]: a state, and the draw of an
    integer between two bounds that also gives the next state. *)
Variable rng : Type.
Variable randint : Z -> Z -> rng -> Z * rng.

(** The [for _ in range(target)] loop. *)
Fixpoint draw_reads (seq : string) (read_len : Z) (n : nat)
    (reads : list string) (st : rng) : list string * rng :=
  match n with
  | O => (reads, st)
  | S n' =>
      let (start, st') := randint 0 (Py.len seq - read_len) st in
      draw_reads seq read_len n' (reads ++ [Py.slice seq start (start + read_len)])%list st'
  end.

(** [coverage] is an [int], as the constant that [main] passes, so
    [coverage * len(seq)] is exact and [/ read_len] is the division of two
    [int]s, whose float [round] takes to an [int] again. *)
Definition make_reads (seq : string) (read_len coverage : Z) (st : rng)
  : div_result (list string * rng) :=
  match Py.true_div (coverage * Py.len seq) read_len with
  | ZeroDivisionError => ZeroDivisionError
  | OverflowError => OverflowError
  | Value x =>
      let target := Z.max 1 (Py.round x) in
      if Py.len seq <=? read_len
      then Value (List.repeat seq (Z.to_nat target), st)
      else Value (draw_reads seq read_len (Z.to_nat target) [] st)
  end.

End RandomSource.

(** ** The FASTA file written by [main] *)

(** The lines of the body, in the order in which they are written:
    [seq[i:i + 70]] for [i] in [range(0, len(seq), 70)]. *)
Definition fasta_body (seq : string) : list string :=
  List.map (fun i => Py.slice seq i (i + 70)) (Py.range_step 0 (Py.len seq) 70).

(** * Notions used in the statements *)

(** ** Strings and windows *)

(** The last symbol of a string, as a string. *)
Definition last_symbol (s : string) : string :=
  substring (String.length s - 1) 1 s.

(** Every window of [k] symbols of a read, from left to right. *)
Definition windows (k : nat) (r : string) : list string :=
  if (k <=? String.length r)%nat
  then List.map (fun i => substring i k r) (List.seq 0 (String.length r - k + 1))
  else [].

(** The edge that a window of [k] symbols adds, read off the window. *)
Definition edge_of_window (k : nat) (w : string) : option (string * string) :=
  if Py.contains "N"%char w then None
  else Some (substring 0 (k - 1) w, substring 1 (k - 1) w).

(** The window [w] adds one to the multiplicity of the edge from [a] to [b]. *)
Definition contributes (k : nat) (a b w : string) : Prop :=
  Py.contains "N"%char w = false /\
  substring 0 (k - 1) w = a /\ substring 1 (k - 1) w = b.

#[local] Instance contributes_dec k a b w : Decision (contributes k a b w).
Proof. unfold contributes. apply _. Defined.

(** A string over the four canonical symbols. *)
Fixpoint canonical (w : string) : bool :=
  match w with
  | EmptyString => true
  | String c w' =>
      (Ascii.eqb c "A" || Ascii.eqb c "C" || Ascii.eqb c "G" || Ascii.eqb c "T")
      && canonical w'
  end.

(** ** Edges of the graph *)

(** The multiplicity of the edge from [a] to [b]: [graph[a][b]], [0] when
    the edge is absent. *)
Definition mult (g : Graph) (a b : string) : Z :=
  match dict_get g a with
  | Some c => counter_get c b
  | None => 0
  end.

(** The edge that the window at [i] adds, if it adds one. *)
Definition window_edge (r : string) (k i : Z) : option (string * string) :=
  let frag := Py.slice r i (i + k) in
  if Py.contains "N"%char frag then None
  else Some (Py.slice_to frag (-1), Py.slice_from frag 1).

(** The edges that a read adds, in the order of their windows. *)
Definition read_edges (k : Z) (r : string) : list (string * string) :=
  if Py.len r <? k then []
  else omap (window_edge r k) (Py.range (Py.len r - k + 1)).

(** The graph after the edges [es] have been added to [g], one by one. *)
Definition add_edges (g : Graph) (es : list (string * string)) : Graph :=
  fold_left (fun g e => graph_incr g e.1 e.2) es g.

(** Every counter of the graph is non-empty, every multiplicity is at least
    one, and every edge satisfies [P]. *)
Definition graph_ok (P : string -> string -> Prop) (g : Graph) : Prop :=
  Forall (fun kc => kc.2 <> [] /\ Forall (fun bn => P kc.1 bn.1 /\ 1 <= bn.2) kc.2) g.

(** ** Degrees *)

(** The sum of the counts of a counter. *)
Definition counter_total (c : Counter) : Z := Py.sum (List.map (fun bn => bn.2) c).

(** The sum of the multiplicities of the edges that leave [a]. *)
Definition out_total (g : Graph) (a : string) : Z :=
  match dict_get g a with
  | Some c => counter_total c
  | None => 0
  end.

(** The sum of the multiplicities of the edges that enter [b]. *)
Definition in_total (g : Graph) (b : string) : Z :=
  Py.sum (List.map (fun kc => counter_get kc.2 b) g).

(** The sum of all multiplicities of the graph. *)
Definition total_mult (g : Graph) : Z :=
  Py.sum (List.map (fun kc => counter_total kc.2) g).

(** The three tables of [make_graph] agree on the degrees. *)
Definition degrees_ok (st : graph_state) : Prop :=
  (forall a, counter_get (outdeg st) a = out_total (edges st) a) /\
  (forall b, counter_get (indeg st) b = in_total (edges st) b) /\
  counter_total (outdeg st) = total_mult (edges st) /\
  counter_total (indeg st) = total_mult (edges st).

(** ** Walks *)

(** The node that the loop moves to from [cur]; none when [graph.get(cur)]
    is missing or empty. *)
Definition next_node (g : Graph) (cur : string) : option string :=
  match dict_get g cur with
  | None | Some [] => None
  | Some (x :: rest) => Some (max_by_count x rest).1
  end.

Section WalkRelation.
Variable cap : Z.
Variable g : Graph.

(** One run of the [while] loop from the state [(cur, seq, vis)]. *)
Inductive walks : string -> string -> gset string ->
                  result (string * gset string) -> Prop :=
| walks_stop cur seq vis :
    next_node g cur = None ->
    walks cur seq vis (Ok (seq, vis))
| walks_raise cur seq vis :
    next_node g cur = Some "" ->
    walks cur seq vis (Raise IndexError)
| walks_revisit cur seq vis nxt :
    next_node g cur = Some nxt -> nxt <> "" -> nxt ∈ vis ->
    walks cur seq vis (Ok (seq ++ last_symbol nxt, vis))
| walks_cap cur seq vis nxt :
    next_node g cur = Some nxt -> nxt <> "" -> nxt ∉ vis ->
    cap < Py.len (seq ++ last_symbol nxt) ->
    walks cur seq vis (Ok (seq ++ last_symbol nxt, {[nxt]} ∪ vis))
| walks_more cur seq vis nxt r :
    next_node g cur = Some nxt -> nxt <> "" -> nxt ∉ vis ->
    Py.len (seq ++ last_symbol nxt) <= cap ->
    walks nxt (seq ++ last_symbol nxt) ({[nxt]} ∪ vis) r ->
    walks cur seq vis r.

(** [p] follows the chosen edges from [cur]. *)
Fixpoint chain (cur : string) (p : list string) : Prop :=
  match p with
  | [] => True
  | x :: p' => next_node g cur = Some x /\ chain x p'
  end.

End WalkRelation.

(** The contig spelled from [seq] along [p]: one symbol for each node. *)
Definition spell (seq : string) (p : list string) : string :=
  fold_left (fun s x => s ++ last_symbol x) p seq.

(** The node [x] lies on the path of one of the contigs: a path of chosen
    edges from a key, along which the contig is spelled. *)
Definition on_path (g : Graph) (contigs : list string) (x : string) : Prop :=
  exists c start p,
    c ∈ contigs /\ start ∈ dict_keys g /\ chain g start p /\
    c = spell start p /\ x ∈ start :: p.

(** [c] is the contig that the traversal builds from the seed [start]:
    the result of the [while] loop entered with [cur = seq = start], where
    [start] was not marked before and is marked on entry. *)
Definition contig_from (cap : Z) (g : Graph) (start c : string) : Prop :=
  exists vis0 vis',
    (start ∉ vis0) /\
    walk_loop cap g (walk_bound g) start start ({[start]} ∪ vis0) = Some (Ok (c, vis')).

(** [w] occurs in [s] as a run of consecutive symbols. *)
Definition occurs_in (w s : string) : Prop :=
  exists pre post, s = pre ++ w ++ post.

(** [w] occurs in one of the reads. *)
Definition observed (reads : list string) (w : string) : Prop :=
  exists r, r ∈ reads /\ occurs_in w r.

(** What the graph records about an edge from [a] to [b]: the k-mer of
    the edge, [a] followed by the last symbol of [b], occurs in a read and
    ends with [b]. *)
Definition edge_seen (reads : list string) (k : Z) (a b : string) : Prop :=
  observed reads (a ++ last_symbol b) /\ Py.len a = k - 1 /\ b <> "" /\
  exists c, a ++ last_symbol b = String c b.

(** Every run of [k] symbols of [s] occurs in one of the reads. *)
Definition kmers_observed (reads : list string) (k : Z) (s : string) : Prop :=
  forall w, occurs_in w s -> Py.len w = k -> observed reads w.

(** A generator for the examples: it counts the draws and walks through
    the range. *)
Definition counting_randint (lo hi : Z) (n : nat) : Z * nat :=
  (lo + Z.of_nat n mod (hi - lo + 1), S n).

(** The node of [seq] at position [i] for windows of [k] symbols. *)
Definition node_at (k : nat) (seq : string) (i : nat) : string :=
  substring i (k - 1) seq.

(** * Strings *)

Section StringFacts.

Lemma length_substring (n m : nat) (s : string) :
  String.length (substring n m s) = Nat.min m (String.length s - n).
Proof.
  revert n m.
  induction s as [|c s IH]; intros [|n] [|m];
    cbn [substring String.length]; rewrite ?IH; lia.
Qed.

Lemma length_zero_empty (s : string) : String.length s = 0%nat <-> s = "".
Proof. destruct s; simpl; split; intros; congruence. Qed.

Lemma length_app (s t : string) :
  String.length (s ++ t) = (String.length s + String.length t)%nat.
Proof. induction s; simpl; auto. Qed.

Lemma len_app (s t : string) : Py.len (s ++ t) = Py.len s + Py.len t.
Proof. unfold Py.len. rewrite length_app. lia. Qed.

Lemma len_nonneg (s : string) : 0 <= Py.len s.
Proof. unfold Py.len. lia. Qed.

Lemma len_zero_empty (s : string) : Py.len s = 0 <-> s = "".
Proof. unfold Py.len. rewrite <- length_zero_empty. lia. Qed.

Lemma len_last_symbol (s : string) : s <> "" -> Py.len (last_symbol s) = 1.
Proof.
  intros Hs. unfold Py.len, last_symbol. rewrite length_substring.
  assert (String.length s <> 0%nat) by (rewrite length_zero_empty; exact Hs).
  lia.
Qed.

Lemma length_mul (s : string) (n : Z) :
  String.length (Py.mul s n) = (String.length s * Z.to_nat n)%nat.
Proof.
  unfold Py.mul. induction (Z.to_nat n) as [|m IH]; simpl; [lia|].
  rewrite length_app, IH. lia.
Qed.

Lemma getitem_last_empty : Py.getitem "" (-1) = Raise IndexError.
Proof. reflexivity. Qed.

Lemma getitem_last (s : string) :
  s <> "" -> Py.getitem s (-1) = Ok (last_symbol s).
Proof.
  intros Hs. unfold Py.getitem, last_symbol.
  assert (Py.len s <> 0) by (rewrite len_zero_empty; exact Hs).
  pose proof (len_nonneg s).
  replace (-1 <? 0) with true by reflexivity.
  destruct (Z.ltb_spec (-1 + Py.len s) 0); [lia|].
  destruct (Z.leb_spec (Py.len s) (-1 + Py.len s)); [lia|]. simpl.
  do 2 f_equal. unfold Py.len. lia.
Qed.

Lemma getitem_last_cases (s : string) :
  (s = "" /\ Py.getitem s (-1) = Raise IndexError) \/
  (s <> "" /\ Py.getitem s (-1) = Ok (last_symbol s)).
Proof.
  destruct (decide (s = "")) as [->|Hs]; [left|right]; split; auto.
  apply getitem_last; exact Hs.
Qed.

(** A window that lies inside the read is the plain substring. *)
Lemma slice_window (r : string) (i k : Z) :
  0 <= i -> 0 <= k -> i + k <= Py.len r ->
  Py.slice r i (i + k) = substring (Z.to_nat i) (Z.to_nat k) r.
Proof.
  intros Hi Hk Hik. unfold Py.slice, Py.adjust_index.
  destruct (Z.ltb_spec i 0); [lia|].
  destruct (Z.ltb_spec (i + k) 0); [lia|].
  f_equal; lia.
Qed.

Lemma slice_to_minus_one (s : string) :
  Py.slice_to s (-1) = substring 0 (String.length s - 1) s.
Proof.
  unfold Py.slice_to, Py.slice, Py.adjust_index, Py.len. simpl.
  f_equal; lia.
Qed.

Lemma slice_from_one (s : string) :
  Py.slice_from s 1 = substring 1 (String.length s - 1) s.
Proof.
  unfold Py.slice_from, Py.slice, Py.adjust_index, Py.len. simpl.
  destruct (Z.ltb_spec (Z.of_nat (String.length s)) 0); [lia|].
  destruct s as [|c s]; [reflexivity|].
  f_equal; simpl String.length; lia.
Qed.

Lemma length_slice_to_minus_one (s : string) :
  String.length (Py.slice_to s (-1)) = (String.length s - 1)%nat.
Proof. rewrite slice_to_minus_one, length_substring. lia. Qed.

Lemma length_slice_from_one (s : string) :
  String.length (Py.slice_from s 1) = (String.length s - 1)%nat.
Proof. rewrite slice_from_one, length_substring. lia. Qed.

(** Prefix and suffix of a window are empty together. *)
Lemma window_ends_empty (frag : string) :
  Py.slice_to frag (-1) = "" <-> Py.slice_from frag 1 = "".
Proof.
  rewrite <- !length_zero_empty.
  rewrite length_slice_to_minus_one, length_slice_from_one. tauto.
Qed.

(** The window that starts at the end of the read, taken for [k <= 0]. *)
Lemma slice_past_end (r : string) (k : Z) :
  k <= 0 -> Py.slice r (Py.len r - k) (Py.len r - k + k) = "".
Proof.
  intros Hk. apply length_zero_empty. unfold Py.slice.
  rewrite length_substring. unfold Py.adjust_index.
  pose proof (len_nonneg r).
  destruct (Z.ltb_spec (Py.len r - k) 0); [lia|].
  destruct (Z.ltb_spec (Py.len r - k + k) 0); lia.
Qed.

End StringFacts.

(** * Dictionaries *)

Section DictFacts.
Context {V : Type}.
Implicit Types (d : dict V) (k : string) (v : V).

Lemma dict_get_set d k v k' :
  dict_get (dict_set d k v) k' = if decide (k' = k) then Some v else dict_get d k'.
Proof.
  induction d as [|[k0 v0] d IH]; simpl.
  - destruct (String.eqb_spec k' k); case_decide; congruence.
  - destruct (String.eqb_spec k k0) as [->|Hk]; simpl.
    + destruct (String.eqb_spec k' k0); case_decide; congruence.
    + rewrite IH.
      destruct (String.eqb_spec k' k0); case_decide; congruence.
Qed.

Lemma dict_get_elem_of d k v : dict_get d k = Some v -> (k, v) ∈ d.
Proof.
  induction d as [|[k0 v0] d IH]; simpl; [discriminate|].
  destruct (String.eqb_spec k k0) as [->|Hk].
  - intros [= ->]. left.
  - intros H. right. auto.
Qed.

Lemma dict_get_is_Some d k : is_Some (dict_get d k) <-> k ∈ dict_keys d.
Proof.
  unfold dict_keys. induction d as [|[k0 v0] d IH]; simpl.
  - split; [intros [? [=]]|intros H; inversion H].
  - destruct (String.eqb_spec k k0) as [->|Hk].
    + split; [left|eauto].
    + rewrite IH. split; [right; auto|].
      intros H. inversion H; subst; [congruence|auto].
Qed.

Lemma dict_keys_set d k v :
  dict_keys (dict_set d k v) =
    match dict_get d k with
    | Some _ => dict_keys d
    | None => (dict_keys d ++ [k])%list
    end.
Proof.
  unfold dict_keys. induction d as [|[k0 v0] d IH]; simpl; [reflexivity|].
  destruct (String.eqb_spec k k0) as [->|Hk]; simpl; [reflexivity|].
  rewrite IH. destruct (dict_get d k); reflexivity.
Qed.

Lemma dict_keys_set_incl d k v k' :
  k' ∈ dict_keys d -> k' ∈ dict_keys (dict_set d k v).
Proof.
  rewrite dict_keys_set. destruct (dict_get d k); [auto|].
  intros H. apply elem_of_app. auto.
Qed.

Lemma dict_keys_set_new d k v : k ∈ dict_keys (dict_set d k v).
Proof.
  apply dict_get_is_Some. rewrite dict_get_set.
  case_decide; [eauto|congruence].
Qed.

(** A property of all items survives an assignment of an item that has it. *)
Lemma dict_set_Forall (Q : string * V -> Prop) d k v :
  Forall Q d -> Q (k, v) -> Forall Q (dict_set d k v).
Proof.
  intros Hd Hq. induction Hd as [|[k0 v0] d H0 Hd IH]; simpl.
  - constructor; [exact Hq|constructor].
  - destruct (String.eqb_spec k k0) as [->|Hk]; constructor; auto.
Qed.

Lemma dict_set_not_nil d k v : dict_set d k v <> [].
Proof. destruct d as [|[k0 v0] d]; simpl; [|destruct (String.eqb k k0)]; discriminate. Qed.

End DictFacts.

(** * The graph of [make_graph] *)

Section GraphFacts.

Lemma counter_get_incr (c : Counter) (b b' : string) :
  counter_get (counter_incr c b) b' =
    counter_get c b' + (if decide (b' = b) then 1 else 0).
Proof.
  unfold counter_incr, counter_get at 1. rewrite dict_get_set.
  case_decide as Hb; [subst; lia|].
  unfold counter_get. destruct (dict_get c b'); lia.
Qed.

Lemma mult_graph_incr (g : Graph) (a b a' b' : string) :
  mult (graph_incr g a b) a' b' =
    mult g a' b' + (if decide ((a, b) = (a', b')) then 1 else 0).
Proof.
  unfold mult, graph_incr. rewrite dict_get_set.
  destruct (decide (a' = a)) as [->|Ha].
  - rewrite counter_get_incr.
    destruct (dict_get g a) as [c|]; repeat case_decide; simplify_eq;
      try congruence; reflexivity.
  - case_decide; [congruence|]. lia.
Qed.

Lemma mult_add_edges (es : list (string * string)) (g : Graph) (a b : string) :
  mult (add_edges g es) a b =
    mult g a b + Z.of_nat (length (filter (fun e => e = (a, b)) es)).
Proof.
  unfold add_edges. revert g. induction es as [|[a0 b0] es IH]; intros g; simpl.
  - lia.
  - rewrite IH, mult_graph_incr.
    rewrite filter_cons. simpl. case_decide; simpl length; lia.
Qed.

Lemma add_edges_app (g : Graph) (es es' : list (string * string)) :
  add_edges g (es ++ es') = add_edges (add_edges g es) es'.
Proof. apply fold_left_app. Qed.

Lemma edges_add_window (r : string) (k : Z) (st : graph_state) (i : Z) :
  edges (add_window r k st i) =
    add_edges (edges st) (option_list (window_edge r k i)).
Proof.
  unfold add_window, window_edge.
  destruct (Py.contains "N" (Py.slice r i (i + k))); reflexivity.
Qed.

Lemma edges_add_windows (r : string) (k : Z) (ixs : list Z) (st : graph_state) :
  edges (fold_left (add_window r k) ixs st) =
    add_edges (edges st) (omap (window_edge r k) ixs).
Proof.
  revert st. induction ixs as [|i ixs IH]; intros st; simpl; [reflexivity|].
  rewrite IH, edges_add_window.
  destruct (window_edge r k i); reflexivity.
Qed.

Lemma edges_add_read (k : Z) (st : graph_state) (r : string) :
  edges (add_read k st r) = add_edges (edges st) (read_edges k r).
Proof.
  unfold add_read, read_edges. destruct (Py.len r <? k); [reflexivity|].
  apply edges_add_windows.
Qed.

Lemma edges_add_reads (k : Z) (reads : list string) (st : graph_state) :
  edges (fold_left (add_read k) reads st) =
    add_edges (edges st) (flat_map (read_edges k) reads).
Proof.
  revert st. induction reads as [|r reads IH]; intros st; simpl; [reflexivity|].
  rewrite IH, edges_add_read, add_edges_app. reflexivity.
Qed.

Lemma edges_make_graph (reads : list string) (k : Z) :
  edges (make_graph reads k) = add_edges [] (flat_map (read_edges k) reads).
Proof. apply edges_add_reads. Qed.

(** The edge multiplicities count the edges that the reads add. *)
Lemma mult_make_graph (reads : list string) (k : Z) (a b : string) :
  mult (edges (make_graph reads k)) a b =
    Z.of_nat (length (filter (fun e => e = (a, b)) (flat_map (read_edges k) reads))).
Proof. rewrite edges_make_graph, mult_add_edges. reflexivity. Qed.

End GraphFacts.

(** ** Shape of the edges *)

Section EdgeFacts.
Variable P : string -> string -> Prop.

Lemma counter_incr_ok (a b : string) (c : Counter) :
  Forall (fun bn => P a bn.1 /\ 1 <= bn.2) c -> P a b ->
  Forall (fun bn => P a bn.1 /\ 1 <= bn.2) (counter_incr c b).
Proof.
  intros Hc Hab. apply dict_set_Forall; [exact Hc|]. simpl. split; [exact Hab|].
  unfold counter_get. destruct (dict_get c b) as [n|] eqn:Hn; [|lia].
  apply dict_get_elem_of in Hn. rewrite Forall_forall in Hc.
  apply Hc in Hn. simpl in Hn. lia.
Qed.

Lemma graph_incr_ok (g : Graph) (a b : string) :
  graph_ok P g -> P a b -> graph_ok P (graph_incr g a b).
Proof.
  intros Hg Hab. unfold graph_incr. apply dict_set_Forall; [exact Hg|]. simpl.
  split; [apply dict_set_not_nil|]. apply counter_incr_ok; [|exact Hab].
  destruct (dict_get g a) as [c|] eqn:Hc; [|constructor].
  apply dict_get_elem_of in Hc. unfold graph_ok in Hg.
  rewrite Forall_forall in Hg. apply Hg in Hc. apply Hc.
Qed.

Lemma add_edges_ok (es : list (string * string)) (g : Graph) :
  graph_ok P g -> Forall (fun e => P e.1 e.2) es -> graph_ok P (add_edges g es).
Proof.
  unfold add_edges. revert g. induction es as [|e es IH]; intros g Hg Hes; simpl.
  - exact Hg.
  - inversion Hes; subst. apply IH; [|assumption]. apply graph_incr_ok; assumption.
Qed.

Lemma make_graph_ok (reads : list string) (k : Z) :
  (forall r e, e ∈ read_edges k r -> P e.1 e.2) ->
  graph_ok P (edges (make_graph reads k)).
Proof.
  intros HP. rewrite edges_make_graph. apply add_edges_ok; [constructor|].
  apply Forall_forall. intros e He. apply list_elem_of_In, in_flat_map in He.
  destruct He as (r & _ & He). apply (HP r). apply list_elem_of_In. exact He.
Qed.

(** What [graph_ok] says about a lookup. *)
Lemma graph_ok_get (g : Graph) (a : string) (c : Counter) :
  graph_ok P g -> dict_get g a = Some c ->
  c <> [] /\ forall b n, (b, n) ∈ c -> P a b /\ 1 <= n.
Proof.
  intros Hg Hc. apply dict_get_elem_of in Hc. unfold graph_ok in Hg.
  rewrite Forall_forall in Hg. apply Hg in Hc. simpl in Hc.
  destruct Hc as [Hne Hc]. split; [exact Hne|]. intros b n Hbn.
  rewrite Forall_forall in Hc. apply (Hc (b, n)). exact Hbn.
Qed.

End EdgeFacts.

Section WindowFacts.

Lemma elem_of_range (n i : Z) : i ∈ Py.range n <-> 0 <= i < n.
Proof.
  unfold Py.range. rewrite list_elem_of_In, in_map_iff. split.
  - intros (j & <- & Hj). apply in_seq in Hj. lia.
  - intros Hi. exists (Z.to_nat i). split; [lia|]. apply in_seq. lia.
Qed.

Lemma range_snoc (n : Z) : 0 <= n -> Py.range (n + 1) = (Py.range n ++ [n])%list.
Proof.
  intros Hn. unfold Py.range.
  replace (Z.to_nat (n + 1)) with (Z.to_nat n + 1)%nat by lia.
  rewrite seq_app, map_app. simpl. do 2 f_equal. lia.
Qed.

Lemma elem_of_read_edges (k : Z) (r : string) (e : string * string) :
  e ∈ read_edges k r <->
  k <= Py.len r /\ exists i, 0 <= i <= Py.len r - k /\ window_edge r k i = Some e.
Proof.
  unfold read_edges. destruct (Z.ltb_spec (Py.len r) k) as [Hlt|Hge].
  - split; [intros H; inversion H|lia].
  - rewrite list_elem_of_omap. split.
    + intros (i & Hi & He). apply elem_of_range in Hi. split; [lia|].
      exists i. split; [lia|exact He].
    + intros (_ & i & Hi & He). exists i. split; [|exact He].
      apply elem_of_range. lia.
Qed.

(** Source and target of an edge are empty together, whatever [k] is. *)
Lemma read_edges_empty_ends (k : Z) (r : string) (e : string * string) :
  e ∈ read_edges k r -> (e.1 = "" <-> e.2 = "").
Proof.
  rewrite elem_of_read_edges. intros (_ & i & _ & He).
  unfold window_edge in He.
  destruct (Py.contains "N" (Py.slice r i (i + k))); [discriminate|].
  injection He as <-. simpl. apply window_ends_empty.
Qed.

(** For [k >= 1] the nodes are the strings of [k - 1] symbols. *)
Lemma read_edges_len (k : Z) (r : string) (e : string * string) :
  1 <= k -> e ∈ read_edges k r -> Py.len e.1 = k - 1 /\ Py.len e.2 = k - 1.
Proof.
  intros Hk. rewrite elem_of_read_edges. intros (Hr & i & Hi & He).
  unfold window_edge in He.
  destruct (Py.contains "N" (Py.slice r i (i + k))); [discriminate|].
  injection He as <-. simpl. unfold Py.len in *.
  rewrite length_slice_to_minus_one, length_slice_from_one.
  rewrite slice_window by (unfold Py.len; lia).
  rewrite length_substring. lia.
Qed.

(** For [k <= 0] the window that starts at the end of the read is empty
    and adds the edge from the empty node to itself. *)
Lemma read_edges_past_end (k : Z) (r : string) :
  k <= 0 -> ("", "") ∈ read_edges k r.
Proof.
  intros Hk. apply elem_of_read_edges. pose proof (len_nonneg r).
  split; [lia|]. exists (Py.len r - k). split; [lia|].
  unfold window_edge. rewrite slice_past_end by exact Hk. reflexivity.
Qed.

Lemma dict_keys_graph_incr (g : Graph) (a b a' : string) :
  a' ∈ dict_keys (graph_incr g a b) <-> a' = a \/ a' ∈ dict_keys g.
Proof.
  unfold graph_incr. rewrite <- !dict_get_is_Some, dict_get_set.
  case_decide; [split; eauto|]. split; [auto|]. intros [?|?]; [congruence|auto].
Qed.

Lemma dict_keys_add_edges (es : list (string * string)) (g : Graph) (a : string) :
  a ∈ dict_keys (add_edges g es) <-> a ∈ dict_keys g \/ exists b, (a, b) ∈ es.
Proof.
  unfold add_edges. revert g. induction es as [|[a0 b0] es IH]; intros g; simpl.
  - split; [auto|]. intros [?|[b Hb]]; [auto|inversion Hb].
  - rewrite IH, dict_keys_graph_incr. split.
    + intros [[->|?]|[b Hb]]; [right; exists b0; left|auto|].
      right. exists b. right. exact Hb.
    + intros [?|[b Hb]]; [auto|]. inversion Hb; subst; [auto|].
      right. exists b. assumption.
Qed.

End WindowFacts.

(** * The traversal *)

Section WalkFacts.
Variable cap : Z.
Variable g : Graph.

Lemma walk_loop_unfold (fuel : nat) (cur seq : string) (vis : gset string) :
  walk_loop cap g (S fuel) cur seq vis =
    match next_node g cur with
    | None => Some (Ok (seq, vis))
    | Some nxt =>
        match Py.getitem nxt (-1) with
        | Raise e => Some (Raise e)
        | Ok ch =>
            if decide (nxt ∈ vis) then Some (Ok (seq ++ ch, vis))
            else if Py.len (seq ++ ch) >? cap
                 then Some (Ok (seq ++ ch, {[nxt]} ∪ vis))
                 else walk_loop cap g fuel nxt (seq ++ ch) ({[nxt]} ∪ vis)
        end
    end.
Proof.
  unfold next_node. simpl.
  destruct (dict_get g cur) as [[|x rest]|]; try reflexivity.
  simpl. destruct (max_by_count x rest) as [nxt n]. reflexivity.
Qed.

Lemma walk_loop_walks (fuel : nat) (cur seq : string) (vis : gset string) r :
  walk_loop cap g fuel cur seq vis = Some r -> walks cap g cur seq vis r.
Proof.
  revert cur seq vis. induction fuel as [|fuel IH]; intros cur seq vis; [discriminate|].
  rewrite walk_loop_unfold.
  destruct (next_node g cur) as [nxt|] eqn:Hn.
  - destruct (getitem_last_cases nxt) as [[-> ->]|[Hne ->]].
    + intros [= <-]. apply walks_raise. exact Hn.
    + case_decide as Hv.
      * intros [= <-]. eapply walks_revisit; eassumption.
      * destruct (Z.gtb_spec (Py.len (seq ++ last_symbol nxt)) cap).
        -- intros [= <-]. apply walks_cap; auto with lia.
        -- intros Hw. eapply walks_more; eauto.
  - intros [= <-]. apply walks_stop. exact Hn.
Qed.

Lemma max_by_count_elem_of (best : string * Z) (items : list (string * Z)) :
  max_by_count best items ∈ best :: items.
Proof.
  revert best. induction items as [|x items IH]; intros best; simpl; [left|].
  destruct (x.2 >? best.2).
  - right. apply IH.
  - specialize (IH best). rewrite elem_of_cons in IH. rewrite !elem_of_cons. tauto.
Qed.

(** The chosen target is one of the outgoing edges of [cur]. *)
Lemma next_node_edge (cur nxt : string) :
  next_node g cur = Some nxt ->
  exists c n, dict_get g cur = Some c /\ (nxt, n) ∈ c.
Proof.
  unfold next_node. destruct (dict_get g cur) as [[|x rest]|]; try discriminate.
  intros [= <-]. exists (x :: rest), (max_by_count x rest).2. split; [reflexivity|].
  pose proof (max_by_count_elem_of x rest) as H.
  destruct (max_by_count x rest); exact H.
Qed.

Lemma next_node_target (cur nxt : string) :
  next_node g cur = Some nxt -> nxt ∈ target_set g.
Proof.
  intros (c & n & Hc & Hn)%next_node_edge. apply dict_get_elem_of in Hc.
  unfold target_set, targets. apply elem_of_list_to_set, list_elem_of_In, in_flat_map.
  exists (cur, c). split; [apply list_elem_of_In; exact Hc|].
  apply list_elem_of_In. unfold dict_keys. simpl.
  apply (list_elem_of_fmap_2 fst) in Hn. exact Hn.
Qed.

(** Termination of the [while] loop: the unmarked targets get fewer. *)
Lemma walk_loop_enough (fuel : nat) (cur seq : string) (vis : gset string) :
  (size (target_set g ∖ vis) < fuel)%nat ->
  is_Some (walk_loop cap g fuel cur seq vis).
Proof.
  revert cur seq vis. induction fuel as [|fuel IH]; intros cur seq vis Hf; [lia|].
  rewrite walk_loop_unfold.
  destruct (next_node g cur) as [nxt|] eqn:Hn; [|eauto].
  destruct (Py.getitem nxt (-1)) as [ch|e]; [|eauto].
  case_decide as Hv; [eauto|].
  destruct (Py.len (seq ++ ch) >? cap); [eauto|].
  apply IH. apply next_node_target in Hn.
  assert (target_set g ∖ ({[nxt]} ∪ vis) ⊂ target_set g ∖ vis) as Hsub.
  { split.
    - intros x. rewrite !elem_of_difference, elem_of_union. tauto.
    - intros Hc. specialize (Hc nxt).
      rewrite !elem_of_difference, elem_of_union, elem_of_singleton in Hc. tauto. }
  apply subset_size in Hsub. lia.
Qed.

Lemma walk_loop_mono (fuel fuel' : nat) (cur seq : string) (vis : gset string) r :
  (fuel <= fuel')%nat ->
  walk_loop cap g fuel cur seq vis = Some r ->
  walk_loop cap g fuel' cur seq vis = Some r.
Proof.
  revert fuel' cur seq vis.
  induction fuel as [|fuel IH]; intros fuel' cur seq vis Hf; [discriminate|].
  destruct fuel' as [|fuel']; [lia|]. rewrite !walk_loop_unfold.
  destruct (next_node g cur) as [nxt|]; [|auto].
  destruct (Py.getitem nxt (-1)) as [ch|e]; [|auto].
  case_decide; [auto|].
  destruct (Py.len (seq ++ ch) >? cap); [auto|].
  apply IH. lia.
Qed.

Lemma walk_loop_bound (fuel : nat) (cur seq : string) (vis : gset string) :
  (walk_bound g <= fuel)%nat -> is_Some (walk_loop cap g fuel cur seq vis).
Proof.
  intros Hf. apply walk_loop_enough. unfold walk_bound in Hf.
  assert (size (target_set g ∖ vis) <= size (target_set g))%nat.
  { apply subseteq_size. intros x. rewrite elem_of_difference. tauto. }
  lia.
Qed.

Lemma walk_starts_bound (fuel : nat) (starts contigs : list string) (vis : gset string) :
  (walk_bound g <= fuel)%nat -> is_Some (walk_starts cap g fuel starts contigs vis).
Proof.
  intros Hf. revert contigs vis.
  induction starts as [|start starts IH]; intros contigs vis; simpl; [eauto|].
  case_decide; [apply IH|].
  destruct (walk_loop_bound fuel start start ({[start]} ∪ vis) Hf) as [[[seq' vis']|e] ->];
    [apply IH|eauto].
Qed.

Lemma walk_starts_mono (fuel fuel' : nat) (starts contigs : list string)
    (vis : gset string) r :
  (fuel <= fuel')%nat ->
  walk_starts cap g fuel starts contigs vis = Some r ->
  walk_starts cap g fuel' starts contigs vis = Some r.
Proof.
  intros Hf. revert contigs vis.
  induction starts as [|start starts IH]; intros contigs vis; simpl; [auto|].
  case_decide; [apply IH|].
  destruct (walk_loop cap g fuel start start ({[start]} ∪ vis)) as [r0|] eqn:Hw;
    [|discriminate].
  rewrite (walk_loop_mono _ _ _ _ _ _ Hf Hw).
  destruct r0 as [[seq' vis']|e]; [apply IH|auto].
Qed.

(** The traversal is a total function: from [walk_bound] on, every amount
    of fuel gives the result of [walk_contigs_cap]. *)
Lemma walk_contigs_fuel_total (fuel : nat) :
  (walk_bound g <= fuel)%nat ->
  walk_contigs_fuel cap g fuel = Some (walk_contigs_cap cap g).
Proof.
  intros Hf. unfold walk_contigs_cap, walk_contigs_fuel.
  destruct (walk_starts_bound (walk_bound g) (dict_keys g) [] ∅ (Nat.le_refl _))
    as [r Hr].
  rewrite Hr. apply (walk_starts_mono _ _ _ _ _ _ Hf Hr).
Qed.

End WalkFacts.

(** ** What a walk produces *)

Lemma append_nil_r (s : string) : s ++ "" = s.
Proof.
  induction s as [|c s IH]; [reflexivity|].
  change (String c (s ++ "") = String c s). rewrite IH. reflexivity.
Qed.

Lemma append_assoc (s t u : string) : (s ++ t) ++ u = s ++ (t ++ u).
Proof.
  induction s as [|c s IH]; [reflexivity|].
  change (String c ((s ++ t) ++ u) = String c (s ++ (t ++ u))). rewrite IH. reflexivity.
Qed.

Section WalkResults.
Variable cap : Z.
Variable g : Graph.

(** A contig extends its seed, by at least one symbol when the seed has
    an outgoing edge, and stays within one symbol of the bound. *)
Lemma walks_len cur seq vis seq' vis' :
  walks cap g cur seq vis (Ok (seq', vis')) ->
  (exists ext, seq' = seq ++ ext /\ (is_Some (next_node g cur) -> 1 <= Py.len ext)) /\
  Py.len seq' <= Z.max cap (Py.len seq) + 1.
Proof.
  intros H. remember (Ok (seq', vis')) as r eqn:Hr. revert seq' vis' Hr.
  induction H as [cur seq vis Hn|cur seq vis Hn|cur seq vis nxt Hn Hne Hv
                 |cur seq vis nxt Hn Hne Hv Hc|cur seq vis nxt r Hn Hne Hv Hc Hw IH];
    intros seq' vis' Hr; simplify_eq.
  - split; [|lia]. exists "". rewrite append_nil_r, Hn.
    split; [reflexivity|]. intros [? [=]].
  - pose proof (len_last_symbol nxt Hne). rewrite len_app. split; [|lia].
    exists (last_symbol nxt). split; [reflexivity|lia].
  - pose proof (len_last_symbol nxt Hne). rewrite len_app. split; [|lia].
    exists (last_symbol nxt). split; [reflexivity|lia].
  - destruct (IH _ _ eq_refl) as [(ext & -> & _) Hlen].
    pose proof (len_last_symbol nxt Hne) as Hl. split.
    + exists (last_symbol nxt ++ ext). rewrite append_assoc.
      split; [reflexivity|]. intros _. rewrite len_app. pose proof (len_nonneg ext). lia.
    + lia.
Qed.

(** A walk inside a set of nodes [Q] that is closed under the chosen
    edges and has no empty node does not raise, and marks nodes of [Q]
    only. *)
Lemma walks_closed (Q : string -> Prop) cur seq vis r :
  (forall x nxt, Q x -> next_node g x = Some nxt -> nxt <> "" /\ Q nxt) ->
  walks cap g cur seq vis r -> Q cur -> (forall x, x ∈ vis -> Q x) ->
  exists seq' vis', r = Ok (seq', vis') /\ forall x, x ∈ vis' -> Q x.
Proof.
  intros HQ H. induction H as [cur seq vis Hn|cur seq vis Hn|cur seq vis nxt Hn Hne Hv
                 |cur seq vis nxt Hn Hne Hv Hc|cur seq vis nxt r Hn Hne Hv Hc Hw IH];
    intros Hcur Hvis.
  - eauto.
  - destruct (HQ _ _ Hcur Hn) as [[] _]. reflexivity.
  - eauto.
  - destruct (HQ _ _ Hcur Hn) as [_ Hq]. do 2 eexists. split; [reflexivity|].
    intros x [->%elem_of_singleton|Hx]%elem_of_union; auto.
  - destruct (HQ _ _ Hcur Hn) as [_ Hq]. apply IH; [exact Hq|].
    intros x [->%elem_of_singleton|Hx]%elem_of_union; auto.
Qed.

(** A contig is spelled along a path of chosen edges; the nodes of the
    path before its last one are distinct and were not marked before. *)
Lemma walks_path cur seq vis seq' vis' :
  walks cap g cur seq vis (Ok (seq', vis')) ->
  exists p, chain g cur p /\ seq' = spell seq p /\
            NoDup (removelast p) /\ forall x, x ∈ removelast p -> x ∉ vis.
Proof.
  intros H. remember (Ok (seq', vis')) as r eqn:Hr. revert seq' vis' Hr.
  induction H as [cur seq vis Hn|cur seq vis Hn|cur seq vis nxt Hn Hne Hv
                 |cur seq vis nxt Hn Hne Hv Hc|cur seq vis nxt r Hn Hne Hv Hc Hw IH];
    intros seq' vis' Hr; simplify_eq.
  - exists []. simpl. repeat split; [constructor|]. intros x Hx. inversion Hx.
  - exists [nxt]. simpl. repeat split; [exact Hn|constructor|]. intros x Hx. inversion Hx.
  - exists [nxt]. simpl. repeat split; [exact Hn|constructor|]. intros x Hx. inversion Hx.
  - destruct (IH _ _ eq_refl) as (p & Hp & -> & Hnd & Hfresh).
    exists (nxt :: p). repeat split; [exact Hn|exact Hp|..].
    + destruct p as [|y p]; [constructor|].
      change (removelast (nxt :: y :: p)) with (nxt :: removelast (y :: p)).
      constructor; [|exact Hnd]. intros Hin. apply Hfresh in Hin.
      apply Hin, elem_of_union. left. apply elem_of_singleton. reflexivity.
    + intros x Hx. destruct p as [|y p]; [inversion Hx|].
      change (removelast (nxt :: y :: p)) with (nxt :: removelast (y :: p)) in Hx.
      apply elem_of_cons in Hx as [->|Hx]; [exact Hv|].
      apply Hfresh in Hx. intros Hx'. apply Hx, elem_of_union. right. exact Hx'.
Qed.

(** A property of the contig of every walk is a property of every contig. *)
Lemma walk_starts_Forall (Phi : string -> Prop) fuel starts contigs vis cs :
  (forall start seq' vis0 vis',
      start ∈ starts -> start ∉ vis0 ->
      walks cap g start start ({[start]} ∪ vis0) (Ok (seq', vis')) -> Phi seq') ->
  Forall Phi contigs ->
  walk_starts cap g fuel starts contigs vis = Some (Ok cs) -> Forall Phi cs.
Proof.
  revert contigs vis.
  induction starts as [|start starts IH]; intros contigs vis HPhi Hcs; simpl.
  - intros [= <-]. exact Hcs.
  - case_decide as Hv.
    + apply IH; [|exact Hcs]. intros. eapply HPhi; eauto. right. assumption.
    + destruct (walk_loop cap g fuel start start ({[start]} ∪ vis))
        as [[[seq' vis']|e]|] eqn:Hw; try discriminate.
      apply walk_loop_walks in Hw. apply IH.
      * intros. eapply HPhi; eauto. right. assumption.
      * apply Forall_app. split; [exact Hcs|]. constructor; [|constructor].
        eapply HPhi; [left|exact Hv|exact Hw].
Qed.

(** The same, from the run of the loop that built the contig. *)
Lemma walk_starts_Forall_loop (Phi : string -> Prop) fuel starts contigs vis cs :
  (forall start seq' vis0 vis',
      start ∈ starts -> start ∉ vis0 ->
      walk_loop cap g fuel start start ({[start]} ∪ vis0) = Some (Ok (seq', vis')) ->
      Phi seq') ->
  Forall Phi contigs ->
  walk_starts cap g fuel starts contigs vis = Some (Ok cs) -> Forall Phi cs.
Proof.
  revert contigs vis.
  induction starts as [|start starts IH]; intros contigs vis HPhi Hcs; simpl.
  - intros [= <-]. exact Hcs.
  - case_decide as Hv.
    + apply IH; [|exact Hcs]. intros. eapply HPhi; eauto. right. assumption.
    + destruct (walk_loop cap g fuel start start ({[start]} ∪ vis))
        as [[[seq' vis']|e]|] eqn:Hw; try discriminate.
      apply IH.
      * intros. eapply HPhi; eauto. right. assumption.
      * apply Forall_app. split; [exact Hcs|]. constructor; [|constructor].
        eapply HPhi; [left|exact Hv|exact Hw].
Qed.

(** No walk raises when every start lies in a closed set [Q] without the
    empty node. *)
Lemma walk_starts_closed (Q : string -> Prop) fuel starts contigs vis r :
  (forall x nxt, Q x -> next_node g x = Some nxt -> nxt <> "" /\ Q nxt) ->
  Forall Q starts -> (forall x, x ∈ vis -> Q x) ->
  walk_starts cap g fuel starts contigs vis = Some r -> exists cs, r = Ok cs.
Proof.
  intros HQ. revert contigs vis.
  induction starts as [|start starts IH]; intros contigs vis Hs Hvis; simpl.
  - intros [= <-]. eauto.
  - inversion Hs as [|? ? Hq Hs']; subst. case_decide as Hv; [apply IH; auto|].
    destruct (walk_loop cap g fuel start start ({[start]} ∪ vis)) as [r0|] eqn:Hw;
      [|discriminate].
    apply walk_loop_walks in Hw.
    destruct (walks_closed Q _ _ _ _ HQ Hw Hq) as (seq' & vis' & -> & Hvis').
    { intros x [->%elem_of_singleton|Hx]%elem_of_union; auto. }
    apply IH; auto.
Qed.

(** The traversal raises as soon as the empty node is a key with an edge
    to itself, when no other node has an edge to it. *)
Lemma walk_starts_empty_node fuel starts contigs vis r :
  (forall x nxt, x <> "" -> next_node g x = Some nxt -> nxt <> "") ->
  next_node g "" = Some "" ->
  "" ∈ starts -> "" ∉ vis ->
  walk_starts cap g fuel starts contigs vis = Some r -> r = Raise IndexError.
Proof.
  intros HQ Hempty. revert contigs vis.
  induction starts as [|start starts IH]; intros contigs vis Hs Hvis; simpl.
  - inversion Hs.
  - case_decide as Hv.
    + apply IH; [|exact Hvis]. apply elem_of_cons in Hs as [<-|Hs]; [contradiction|exact Hs].
    + destruct (decide (start = "")) as [->|Hne].
      * destruct fuel as [|fuel]; [discriminate|].
        rewrite walk_loop_unfold, Hempty. simpl. congruence.
      * destruct (walk_loop cap g fuel start start ({[start]} ∪ vis)) as [r0|] eqn:Hw;
          [|discriminate].
        apply walk_loop_walks in Hw.
        destruct (walks_closed (fun x => x <> "") _ _ _ _ (fun x nxt Hx Hn => conj (HQ x nxt Hx Hn) (HQ x nxt Hx Hn)) Hw Hne)
          as (seq' & vis' & -> & Hvis').
        { intros x [->%elem_of_singleton|Hx]%elem_of_union; [exact Hne|].
          intros ->. contradiction. }
        apply IH.
        -- apply elem_of_cons in Hs as [Hs|Hs]; [congruence|exact Hs].
        -- intros Hin. apply Hvis' in Hin. congruence.
Qed.

End WalkResults.

(** * Assembly statistics *)

#[local] Instance Zge_total : Total Z.ge.
Proof. intros x y. lia. Qed.

Section N50Facts.

Lemma half_reached (total acc : Z) :
  Qle_bool (inject_Z total / 2) (inject_Z acc) = (total <=? 2 * acc).
Proof.
  apply eq_true_iff_eq. rewrite Qle_bool_iff, Z.leb_le.
  unfold Qle, Qdiv, Qmult, Qinv, inject_Z. simpl. lia.
Qed.

(** The loop stops at the first length at which the running sum, doubled,
    reaches [total]. *)
Lemma n50_loop_first (total : Z) (lengths : list Z) (acc : Z) (i : nat) :
  total <= 2 * (acc + Py.sum (take (S i) lengths)) ->
  (i < length lengths)%nat ->
  exists (j : nat) (L : Z),
    lengths !! j = Some L /\
    n50_loop (inject_Z total / 2) acc lengths = L /\
    total <= 2 * (acc + Py.sum (take (S j) lengths)) /\
    forall j', (j' < j)%nat -> 2 * (acc + Py.sum (take (S j') lengths)) < total.
Proof.
  revert acc i. induction lengths as [|L rest IH]; intros acc i Hi Hlen; simpl in *; [lia|].
  rewrite half_reached. destruct (Z.leb_spec total (2 * (acc + L))) as [Hle|Hgt].
  - exists 0%nat, L. simpl. rewrite ?take_0. simpl.
    repeat split; [lia|]. intros j' Hj'. lia.
  - destruct i as [|i]; [rewrite ?take_0 in Hi; simpl in Hi; lia|].
    destruct (IH (acc + L) i) as (j & L' & Hj & Hn & Hreach & Hfirst); [lia|lia|].
    exists (S j), L'. simpl. repeat split; [exact Hj|exact Hn|lia|].
    intros [|j'] Hj'; [rewrite ?take_0; simpl; lia|].
    specialize (Hfirst j'). simpl. lia.
Qed.

Lemma sum_nonneg (l : list Z) : Forall (fun x => 0 <= x) l -> 0 <= Py.sum l.
Proof. induction 1; simpl; lia. Qed.

Lemma sorted_desc_perm (l : list Z) : sorted_desc l ≡ₚ l.
Proof. apply merge_sort_Permutation. Qed.

Lemma sorted_desc_sorted (l : list Z) : Sorted Z.ge (sorted_desc l).
Proof. apply (Sorted_merge_sort Z.ge). Qed.

End N50Facts.

(** * The properties of the specification *)

(** C1.  On the genome ACGTTGCA with k = 4 and its four reads of five
    symbols, the first key of the graph is ACG, the traversal yields the
    single contig ACGTTGCA, and the nodes of the genome are pairwise
    distinct. *)
Theorem exact_reconstruction :
  let reads := ["ACGTT"; "CGTTG"; "GTTGC"; "TTGCA"] in
  let graph := edges (make_graph reads 4) in
  head (dict_keys graph) = Some "ACG" /\
  walk_contigs graph = Ok ["ACGTTGCA"] /\
  NoDup (windows 3 "ACGTTGCA").
Proof.
  repeat split; try (vm_compute; reflexivity).
  apply (bool_decide_unpack _). vm_compute. exact I.
Qed.

(** C2.  For a non-empty sequence of contigs, N50 is the length found by
    sorting the lengths in descending order and adding them up until the
    running sum first reaches half of the total; the lengths 50, 40, 30,
    20, 10 give 40. *)
Theorem n50_first_half (contigs : list string) :
  contigs <> [] ->
  let lengths := sorted_desc (List.map Py.len contigs) in
  (Sorted Z.ge lengths /\ lengths ≡ₚ List.map Py.len contigs /\
   exists (i : nat) (L : Z),
     lengths !! i = Some L /\ n50_of contigs = L /\
     Py.sum lengths <= 2 * Py.sum (take (S i) lengths) /\
     forall j, (j < i)%nat -> 2 * Py.sum (take (S j) lengths) < Py.sum lengths) /\
  (List.map Py.len contigs = [50; 40; 30; 20; 10] -> n50_of contigs = 40).
Proof.
  intros Hne lengths. split.
  - split; [apply sorted_desc_sorted|]. split; [apply sorted_desc_perm|].
    assert (Hperm : lengths ≡ₚ List.map Py.len contigs) by apply sorted_desc_perm.
    assert (Hpos : Forall (fun x => 0 <= x) lengths).
    { rewrite Hperm. apply Forall_forall. intros x Hx.
      apply list_elem_of_In, in_map_iff in Hx. destruct Hx as (c & <- & _).
      apply len_nonneg. }
    assert (Hlen : (0 < length lengths)%nat).
    { rewrite Hperm, length_map. destruct contigs; [congruence|simpl; lia]. }
    destruct (n50_loop_first (Py.sum lengths) lengths 0 (length lengths - 1))
      as (j & L & Hj & Hn & Hreach & Hfirst).
    + replace (S (length lengths - 1)) with (length lengths) by lia.
      rewrite firstn_all. apply sum_nonneg in Hpos. lia.
    + lia.
    + exists j, L. split; [exact Hj|]. split; [|split; [lia|]].
      * unfold n50_of. fold lengths. destruct lengths; [simpl in Hlen; lia|exact Hn].
      * intros j' Hj'. specialize (Hfirst j' Hj'). lia.
  - intros Hl. unfold n50_of. rewrite Hl. vm_compute. reflexivity.
Qed.

Lemma n50_first_half_witness :
  let contigs := List.map (fun n => string_of_list_ascii (repeat "A"%char n))
                          [50; 40; 30; 20; 10]%nat in
  contigs <> [] /\ n50_of contigs = 40.
Proof.
  intros contigs. split; [discriminate|].
  apply (n50_first_half contigs); [discriminate|vm_compute; reflexivity].
Defined.

(** ** Choice of the next edge *)

Lemma max_by_count_split (items : list (string * Z)) (best : string * Z) :
  exists pre post,
    best :: items = (pre ++ max_by_count best items :: post)%list /\
    Forall (fun x => x.2 < (max_by_count best items).2) pre /\
    Forall (fun x => x.2 <= (max_by_count best items).2) post.
Proof.
  revert best. induction items as [|x rest IH]; intros best; simpl.
  - exists [], []. repeat split; constructor.
  - destruct (Z.gtb_spec x.2 best.2) as [Hgt|Hle].
    + destruct (IH x) as (pre & post & Heq & Hpre & Hpost).
      set (M := max_by_count x rest) in *. clearbody M.
      exists (best :: pre), post. rewrite Heq. repeat split; [|exact Hpost].
      constructor; [|exact Hpre].
      assert (x ∈ (pre ++ M :: post)%list) as Hx by (rewrite <- Heq; left).
      rewrite Forall_forall in Hpre, Hpost.
      apply elem_of_app in Hx as [Hx|Hx]; [apply Hpre in Hx; lia|].
      apply elem_of_cons in Hx as [<-|Hx]; [lia|apply Hpost in Hx; lia].
    + destruct (IH best) as (pre & post & Heq & Hpre & Hpost).
      set (M := max_by_count best rest) in *. clearbody M.
      destruct pre as [|y pre]; simpl in Heq.
      * injection Heq as <- <-. exists [], (x :: rest).
        repeat split; [constructor|]. constructor; [lia|exact Hpost].
      * injection Heq as <- ->. exists (best :: x :: pre), post.
        inversion Hpre; subst. repeat split; [|exact Hpost].
        constructor; [assumption|]. constructor; [lia|assumption].
Qed.

(** C3, as the code has it.  At every extension step the loop moves along
    the outgoing edge of greatest multiplicity; among several edges of
    greatest multiplicity it takes the one that was inserted first into the
    counter of the current node (every edge before the chosen one has a
    strictly smaller multiplicity, no edge after it has a greater one). *)
Theorem next_edge_first_greatest (cap : Z) (g : Graph) (fuel : nat)
    (cur seq : string) (vis : gset string) (c : Counter) :
  dict_get g cur = Some c -> c <> [] ->
  exists pre nxt n post,
    c = (pre ++ (nxt, n) :: post)%list /\
    Forall (fun x => x.2 < n) pre /\
    Forall (fun x => x.2 <= n) post /\
    most_common_1 c = [(nxt, n)] /\
    walk_loop cap g (S fuel) cur seq vis =
      match Py.getitem nxt (-1) with
      | Raise e => Some (Raise e)
      | Ok ch =>
          if decide (nxt ∈ vis) then Some (Ok (seq ++ ch, vis))
          else if Py.len (seq ++ ch) >? cap
               then Some (Ok (seq ++ ch, {[nxt]} ∪ vis))
               else walk_loop cap g fuel nxt (seq ++ ch) ({[nxt]} ∪ vis)
      end.
Proof.
  intros Hc Hne. destruct c as [|x rest]; [congruence|].
  destruct (max_by_count_split rest x) as (pre & post & Heq & Hpre & Hpost).
  destruct (max_by_count x rest) as [nxt n] eqn:Hm.
  exists pre, nxt, n, post. repeat split; try assumption.
  - simpl. rewrite Hm. reflexivity.
  - rewrite walk_loop_unfold. unfold next_node. rewrite Hc, Hm. reflexivity.
Qed.

Lemma next_edge_first_greatest_witness :
  let g := edges (make_graph ["AAT"; "AAC"] 3) in
  exists pre nxt n post,
    [("AT", 1); ("AC", 1)] = (pre ++ (nxt, n) :: post)%list /\
    Forall (fun x => x.2 < n) pre /\
    Forall (fun x => x.2 <= n) post /\
    most_common_1 [("AT", 1); ("AC", 1)] = [(nxt, n)] /\
    walk_loop LENGTH_CAP g 1 "AA" "AA" {["AA"]} =
      match Py.getitem nxt (-1) with
      | Raise e => Some (Raise e)
      | Ok ch =>
          if decide (nxt ∈ ({["AA"]} : gset string)) then Some (Ok ("AA" ++ ch, {["AA"]}))
          else if Py.len ("AA" ++ ch) >? LENGTH_CAP
               then Some (Ok ("AA" ++ ch, {[nxt]} ∪ {["AA"]}))
               else walk_loop LENGTH_CAP g 0 nxt ("AA" ++ ch) ({[nxt]} ∪ {["AA"]})
      end.
Proof.
  intros g.
  apply (next_edge_first_greatest LENGTH_CAP g 0 "AA" "AA" {["AA"]} [("AT", 1); ("AC", 1)]).
  - vm_compute. reflexivity.
  - discriminate.
Defined.

(** C3, as the specification words it, fails: with the reads AAT and AAC
    and k = 3 the node AA has the edges to AT and to AC, both of
    multiplicity one; the loop moves to AT, which was inserted first,
    although AC is the smaller string. *)
Lemma next_edge_smallest_target_counterexample :
  ~ (forall (reads : list string) (k : Z) (cur : string) (c : Counter) (nxt : string) (n : Z),
        dict_get (edges (make_graph reads k)) cur = Some c ->
        most_common_1 c = [(nxt, n)] ->
        forall t m, (t, m) ∈ c -> m <= n /\ (m = n -> String.le nxt t)).
Proof.
  intros H.
  destruct (H ["AAT"; "AAC"] 3 "AA" [("AT", 1); ("AC", 1)] "AT" 1
              eq_refl eq_refl "AC" 1) as [_ Hle].
  - right. left.
  - specialize (Hle eq_refl). vm_compute in Hle. exact Hle.
Qed.

(** ** Empty input *)

Lemma make_graph_short_reads (reads : list string) (k : Z) (st : graph_state) :
  (forall r, r ∈ reads -> Py.len r < k) ->
  fold_left (add_read k) reads st = st.
Proof.
  revert st. induction reads as [|r reads IH]; intros st Hr; simpl; [reflexivity|].
  unfold add_read at 2. destruct (Z.ltb_spec (Py.len r) k) as [_|Hge].
  - apply IH. intros r' Hr'. apply Hr. right. exact Hr'.
  - assert (Py.len r < k) by (apply Hr; left). lia.
Qed.

(** C8.  When no read is supplied, or every read is shorter than k, the
    assembler returns normally with no contig and N50 zero. *)
Theorem empty_input_zero_result (reads : list string) (k : Z) :
  (forall r, r ∈ reads -> Py.len r < k) ->
  edges (make_graph reads k) = [] /\ run_assembly reads k = Ok (0, 0).
Proof.
  intros Hr. unfold run_assembly, make_graph.
  rewrite make_graph_short_reads by exact Hr. split; reflexivity.
Qed.

Lemma empty_input_zero_result_witness :
  run_assembly [] 4 = Ok (0, 0) /\ run_assembly ["ACG"; "TT"] 4 = Ok (0, 0).
Proof.
  split.
  - apply (empty_input_zero_result [] 4). intros r Hr. inversion Hr.
  - apply (empty_input_zero_result ["ACG"; "TT"] 4). intros r Hr.
    repeat (apply elem_of_cons in Hr as [->|Hr]; [reflexivity|]). inversion Hr.
Defined.

(** ** Windows and edges *)

Section WindowEdges.

Lemma window_edge_inside (r : string) (k i : nat) :
  (i + k <= String.length r)%nat ->
  window_edge r (Z.of_nat k) (Z.of_nat i) = edge_of_window k (substring i k r).
Proof.
  intros Hi. unfold window_edge, edge_of_window.
  rewrite slice_window by (unfold Py.len; lia). rewrite !Nat2Z.id.
  destruct (Py.contains "N" (substring i k r)); [reflexivity|].
  rewrite slice_to_minus_one, slice_from_one, length_substring.
  do 3 f_equal; lia.
Qed.

Lemma read_edges_windows (k : nat) (r : string) :
  read_edges (Z.of_nat k) r = omap (edge_of_window k) (windows k r).
Proof.
  unfold read_edges, windows, Py.len, Py.range.
  destruct (Z.ltb_spec (Z.of_nat (String.length r)) (Z.of_nat k)) as [Hlt|Hge];
    destruct (Nat.leb_spec k (String.length r)) as [Hle|Hgt]; try lia; [reflexivity|].
  replace (Z.to_nat (Z.of_nat (String.length r) - Z.of_nat k + 1))
    with (String.length r - k + 1)%nat by lia.
  assert (Hseq : Forall (fun i => (i + k <= String.length r)%nat)
                        (List.seq 0 (String.length r - k + 1))).
  { apply Forall_forall. intros i Hi. apply list_elem_of_In, in_seq in Hi. lia. }
  induction Hseq as [|i l Hi Hl IH]; [reflexivity|].
  unfold omap in IH |- *. simpl.
  rewrite window_edge_inside by exact Hi. rewrite IH. reflexivity.
Qed.

Lemma flat_map_omap {A B C} (f : B -> option C) (h : A -> list B) (l : list A) :
  flat_map (fun x => omap f (h x)) l = omap f (flat_map h l).
Proof.
  induction l as [|x l IH]; simpl; [reflexivity|]. rewrite omap_app, IH. reflexivity.
Qed.

Lemma length_filter_omap {A B} `{EqDecision B} (f : A -> option B) (y : B) (l : list A) :
  length (filter (fun e => e = y) (omap f l)) =
  length (filter (fun x => f x = Some y) l).
Proof.
  unfold omap. induction l as [|x l IH]; simpl; [reflexivity|].
  rewrite (filter_cons (fun x => f x = Some y)).
  destruct (f x) as [e|]; simpl.
  - rewrite filter_cons. repeat case_decide; simplify_eq; simpl; congruence.
  - first [case_decide; [discriminate|exact IH] | exact IH].
Qed.

Lemma edge_of_window_contributes (k : nat) (a b w : string) :
  edge_of_window k w = Some (a, b) <-> contributes k a b w.
Proof.
  unfold edge_of_window, contributes.
  destruct (Py.contains "N" w); split.
  - discriminate.
  - intros [[=] _].
  - intros [= <- <-]. auto.
  - intros (_ & <- & <-). reflexivity.
Qed.

(** The multiplicity of an edge is the number of windows, over all reads,
    that are free of N and have its source and target as ends. *)
Lemma mult_make_graph_windows (reads : list string) (k : nat) (a b : string) :
  mult (edges (make_graph reads (Z.of_nat k))) a b =
    Z.of_nat (length (filter (contributes k a b) (flat_map (windows k) reads))).
Proof.
  rewrite mult_make_graph. f_equal.
  rewrite (flat_map_ext _ _ (read_edges_windows k)), flat_map_omap, length_filter_omap.
  f_equal. apply list_filter_iff. intros w. apply edge_of_window_contributes.
Qed.

End WindowEdges.

(** C7, as the code has it.  A window is discarded exactly when it contains
    the symbol N: the multiplicity of every edge is the number of windows
    without N, over all reads, that have its source as prefix and its
    target as suffix.  So the other windows of a read with an N still add
    their edges, as for the read ACNGT with k = 2, and a window with a
    symbol other than A, C, G, T, N adds its edge as well. *)
Theorem only_windows_with_N_discarded (reads : list string) (k : nat) (a b : string) :
  mult (edges (make_graph reads (Z.of_nat k))) a b =
    Z.of_nat (length (filter (contributes k a b) (flat_map (windows k) reads))) /\
  edges (make_graph ["ACNGT"] 2) = [("A", [("C", 1)]); ("G", [("T", 1)])].
Proof. split; [apply mult_make_graph_windows|reflexivity]. Qed.

(** C7, as the specification words it, fails: the read ACXGT with k = 2
    adds the edge from C to X, although its only window with these ends,
    CX, contains a symbol outside the canonical alphabet. *)
Lemma noncanonical_window_counterexample :
  ~ (forall (reads : list string) (k : nat) (a b : string),
        mult (edges (make_graph reads (Z.of_nat k))) a b =
          Z.of_nat (length (filter
            (fun w => canonical w = true /\
                      substring 0 (k - 1) w = a /\ substring 1 (k - 1) w = b)
            (flat_map (windows k) reads)))).
Proof.
  intros H. specialize (H ["ACXGT"] 2%nat "C" "X"). vm_compute in H. discriminate.
Qed.

(** ** Order of the reads *)

(** C4, as the code has it.  Reads that are permutations of each other give
    graphs with the same multiplicity for every pair of source and target. *)
Theorem multiplicities_permutation_invariant (reads1 reads2 : list string)
    (k : Z) (a b : string) :
  reads1 ≡ₚ reads2 ->
  mult (edges (make_graph reads1 k)) a b = mult (edges (make_graph reads2 k)) a b.
Proof.
  intros Hp. rewrite !mult_make_graph. f_equal. apply Permutation_length.
  apply filter_Permutation, Permutation_flat_map. exact Hp.
Qed.

Lemma reads_rotation :
  ["GTTGC"; "ACGTT"; "CGTTG"; "TTGCA"] ≡ₚ ["ACGTT"; "CGTTG"; "GTTGC"; "TTGCA"].
Proof. apply (Permutation_cons_app ["ACGTT"; "CGTTG"] ["TTGCA"]). reflexivity. Qed.

Lemma multiplicities_permutation_invariant_witness :
  mult (edges (make_graph ["GTTGC"; "ACGTT"; "CGTTG"; "TTGCA"] 4)) "GTT" "TTG" =
  mult (edges (make_graph ["ACGTT"; "CGTTG"; "GTTGC"; "TTGCA"] 4)) "GTT" "TTG".
Proof.
  apply (multiplicities_permutation_invariant _ _ 4 "GTT" "TTG"), reads_rotation.
Defined.

(** C4, as the specification words it, fails: the keys of the graph are
    walked in their order of insertion, so the reads of ACGTTGCA taken with
    GTTGC first give the contigs GTTGCA and ACGTT instead of ACGTTGCA. *)
Lemma contigs_permutation_counterexample :
  ~ (forall (reads1 reads2 : list string) (k : Z),
        reads1 ≡ₚ reads2 ->
        (forall a b, mult (edges (make_graph reads1 k)) a b =
                     mult (edges (make_graph reads2 k)) a b) /\
        (forall contigs1 contigs2,
            walk_contigs (edges (make_graph reads1 k)) = Ok contigs1 ->
            walk_contigs (edges (make_graph reads2 k)) = Ok contigs2 ->
            contigs1 ≡ₚ contigs2)).
Proof.
  intros H. destruct (H _ _ 4 reads_rotation) as [_ Hc].
  specialize (Hc ["GTTGCA"; "ACGTT"] ["ACGTTGCA"]).
  apply Permutation_length in Hc; [discriminate|vm_compute; reflexivity..].
Qed.

(** ** Contigs of the whole traversal *)

Section Contigs.
Variable cap : Z.
Variable g : Graph.

Lemma walk_contigs_cap_starts (r : result (list string)) :
  walk_contigs_cap cap g = r ->
  walk_starts cap g (walk_bound g) (dict_keys g) [] ∅ = Some r.
Proof.
  intros <-. apply (walk_contigs_fuel_total cap g (walk_bound g)). reflexivity.
Qed.

Lemma walk_contigs_Forall (Phi : string -> Prop) (contigs : list string) :
  (forall start seq' vis0 vis',
      start ∈ dict_keys g -> start ∉ vis0 ->
      walks cap g start start ({[start]} ∪ vis0) (Ok (seq', vis')) -> Phi seq') ->
  walk_contigs_cap cap g = Ok contigs -> Forall Phi contigs.
Proof.
  intros HPhi Hw. apply walk_contigs_cap_starts in Hw.
  eapply walk_starts_Forall; [exact HPhi|constructor|exact Hw].
Qed.

(** Every contig is the contig of one of the keys, its seed. *)
Lemma walk_contigs_seeded (contigs : list string) :
  walk_contigs_cap cap g = Ok contigs ->
  Forall (fun c => exists start, start ∈ dict_keys g /\ contig_from cap g start c) contigs.
Proof.
  intros Hw. apply walk_contigs_cap_starts in Hw.
  eapply walk_starts_Forall_loop; [|constructor|exact Hw].
  intros start seq' vis0 vis' Hs Hv Hl. exists start. split; [exact Hs|].
  exists vis0, vis'. split; [exact Hv|exact Hl].
Qed.

Lemma graph_ok_edge (P : string -> string -> Prop) (a nxt : string) :
  graph_ok P g -> next_node g a = Some nxt -> P a nxt.
Proof.
  intros Hg (c & n & Hc & Hn)%next_node_edge.
  destruct (graph_ok_get P g a c Hg Hc) as [_ Hall]. apply (Hall nxt n Hn).
Qed.

Lemma graph_ok_next (P : string -> string -> Prop) (a : string) :
  graph_ok P g -> a ∈ dict_keys g -> exists nxt, next_node g a = Some nxt /\ P a nxt.
Proof.
  intros Hg Ha. apply dict_get_is_Some in Ha as [c Hc].
  destruct (graph_ok_get P g a c Hg Hc) as [Hne _].
  assert (Hn : is_Some (next_node g a)).
  { unfold next_node. rewrite Hc. destruct c; [congruence|eauto]. }
  destruct Hn as [nxt Hn]. exists nxt. split; [exact Hn|].
  eapply graph_ok_edge; eassumption.
Qed.

End Contigs.

(** ** The bound on the length of a contig *)

(** C9, as the code has it.  The bound on the length of a contig is the
    constant 2,000,000 of the traversal, which no caller can change.  A
    walk that has marked a new node and whose contig is then longer than
    the bound stops there, so every contig, which extends its own seed, is
    at most one symbol longer than the bound, or than that seed when the
    seed itself exceeds the bound.  The traversal is taken at any value
    [cap] of the constant; the program runs it at [LENGTH_CAP]. *)
Theorem fixed_length_cap (cap : Z) (g : Graph) (contigs : list string) :
  walk_contigs_cap cap g = Ok contigs ->
  (LENGTH_CAP = 2000000 /\ walk_contigs g = walk_contigs_cap LENGTH_CAP g) /\
  (forall fuel cur seq vis nxt,
      next_node g cur = Some nxt -> nxt <> "" -> nxt ∉ vis ->
      cap < Py.len (seq ++ last_symbol nxt) ->
      walk_loop cap g (S fuel) cur seq vis =
        Some (Ok (seq ++ last_symbol nxt, {[nxt]} ∪ vis))) /\
  Forall (fun c => exists start ext,
              start ∈ dict_keys g /\ contig_from cap g start c /\
              c = start ++ ext /\
              Py.len c <= Z.max cap (Py.len start) + 1) contigs.
Proof.
  intros Hw. split; [split; reflexivity|]. split.
  - intros fuel cur seq vis nxt Hn Hne Hv Hc.
    rewrite walk_loop_unfold, Hn, (getitem_last nxt Hne).
    case_decide; [contradiction|].
    destruct (Z.gtb_spec (Py.len (seq ++ last_symbol nxt)) cap); [reflexivity|lia].
  - apply walk_contigs_seeded in Hw. eapply Forall_impl; [exact Hw|].
    intros c (start & Hs & Hc). pose proof Hc as (vis0 & vis' & _ & Hl).
    apply walk_loop_walks, walks_len in Hl as [(ext & Hext & _) Hlen].
    exists start, ext. repeat split; assumption.
Qed.

(** The traversal of the reads of ACGTTGCA at the constant of the program
    and at 4, where ACGTT stops one symbol beyond the bound; and the step
    of the program that stops at 2,000,001 symbols. *)
Lemma fixed_length_cap_witness :
  let g := edges (make_graph ["ACGTT"; "CGTTG"; "GTTGC"; "TTGCA"] 4) in
  Forall (fun c => exists start ext,
              start ∈ dict_keys g /\ contig_from LENGTH_CAP g start c /\
              c = start ++ ext /\
              Py.len c <= Z.max LENGTH_CAP (Py.len start) + 1) ["ACGTTGCA"] /\
  Forall (fun c => exists start ext,
              start ∈ dict_keys g /\ contig_from 4 g start c /\
              c = start ++ ext /\
              Py.len c <= Z.max 4 (Py.len start) + 1) ["ACGTT"; "TTGCA"] /\
  walk_loop LENGTH_CAP g 1 "ACG" (Py.mul "A" 2000000) {["ACG"]} =
    Some (Ok (Py.mul "A" 2000000 ++ "T", {["CGT"]} ∪ {["ACG"]})).
Proof.
  intros g. split; [|split].
  - apply (fixed_length_cap LENGTH_CAP g ["ACGTTGCA"]). vm_compute. reflexivity.
  - apply (fixed_length_cap 4 g ["ACGTT"; "TTGCA"]). vm_compute. reflexivity.
  - destruct (fixed_length_cap LENGTH_CAP g ["ACGTTGCA"]) as (_ & Hstep & _);
      [vm_compute; reflexivity|].
    apply (Hstep 0%nat "ACG" (Py.mul "A" 2000000) {["ACG"]} "CGT").
    + vm_compute. reflexivity.
    + discriminate.
    + intros H. apply elem_of_singleton in H. discriminate.
    + rewrite len_app. unfold Py.len at 1. rewrite length_mul.
      change (String.length "A") with 1%nat.
      change (Py.len (last_symbol "CGT")) with 1.
      change LENGTH_CAP with 2000000. lia.
Defined.

(** C9, as the specification words it, fails: the entry point takes the
    reads and k only, so a bound of the caller's choice, here 4, is not in
    force: the reads of ACGTTGCA with k = 4 give a contig of 8 symbols. *)
Lemma configurable_cap_counterexample :
  ~ (forall (length_cap : Z) (reads : list string) (k : Z) (contigs : list string),
        0 <= length_cap ->
        walk_contigs (edges (make_graph reads k)) = Ok contigs ->
        Forall (fun c => Py.len c <= Z.max length_cap (k - 1) + 1) contigs).
Proof.
  intros H.
  assert (Hf := H 4 ["ACGTT"; "CGTTG"; "GTTGC"; "TTGCA"] 4 ["ACGTTGCA"]
                  ltac:(lia) ltac:(vm_compute; reflexivity)).
  apply Forall_inv in Hf. vm_compute in Hf. apply Hf. reflexivity.
Qed.

(** ** Nodes of the graph and the value of k *)

Section NodeShape.
Variable reads : list string.
Variable k : Z.

Lemma make_graph_empty_ends :
  graph_ok (fun a b => a = "" <-> b = "") (edges (make_graph reads k)).
Proof. apply make_graph_ok. intros r e. apply read_edges_empty_ends. Qed.

Lemma make_graph_lengths :
  1 <= k ->
  graph_ok (fun a b => Py.len a = k - 1 /\ Py.len b = k - 1) (edges (make_graph reads k)).
Proof. intros Hk. apply make_graph_ok. intros r e. apply read_edges_len. exact Hk. Qed.

Lemma add_edges_nil (es : list (string * string)) : add_edges [] es = [] -> es = [].
Proof.
  destruct es as [|[a b] es]; [reflexivity|]. intros H.
  assert (Ha : a ∈ dict_keys (add_edges [] ((a, b) :: es))).
  { apply dict_keys_add_edges. right. exists b. left. }
  rewrite H in Ha. inversion Ha.
Qed.

(** For [k < 2] a graph that is not empty has the empty node as a key. *)
Lemma small_k_empty_key :
  k < 2 -> edges (make_graph reads k) <> [] ->
  "" ∈ dict_keys (edges (make_graph reads k)).
Proof.
  intros Hk. rewrite edges_make_graph. intros Hne.
  destruct (flat_map (read_edges k) reads) as [|e es] eqn:Hes; [contradiction|].
  assert (He : e ∈ flat_map (read_edges k) reads) by (rewrite Hes; left).
  apply list_elem_of_In, in_flat_map in He as (r & Hr & He).
  apply list_elem_of_In in He.
  rewrite <- Hes. apply dict_keys_add_edges. right.
  destruct (decide (k <= 0)) as [Hk0|Hk1].
  - exists "". apply list_elem_of_In, in_flat_map. exists r. split; [exact Hr|].
    apply list_elem_of_In, read_edges_past_end. exact Hk0.
  - exists e.2. apply (read_edges_len k r e) in He as He'; [|lia].
    destruct He' as [He1 _]. replace (k - 1) with 0 in He1 by lia.
    apply len_zero_empty in He1. rewrite <- He1.
    apply list_elem_of_In, in_flat_map. exists r. split; [exact Hr|].
    apply list_elem_of_In. destruct e; exact He.
Qed.

(** For [k < 2] the traversal of a graph that is not empty raises at the
    empty node. *)
Lemma walk_small_k (cap : Z) :
  k < 2 ->
  walk_contigs_cap cap (edges (make_graph reads k)) =
    match edges (make_graph reads k) with
    | [] => Ok []
    | _ :: _ => Raise IndexError
    end.
Proof.
  intros Hk. pose proof make_graph_empty_ends as Hok.
  pose proof (small_k_empty_key Hk) as Hkey.
  destruct (edges (make_graph reads k)) as [|kc g'] eqn:Hg; [reflexivity|].
  rewrite <- Hg in *. specialize (Hkey ltac:(rewrite Hg; discriminate)).
  set (g := edges (make_graph reads k)) in *.
  eapply (walk_starts_empty_node cap g (walk_bound g) (dict_keys g) [] ∅).
  - intros x nxt Hx Hn. apply (graph_ok_edge g _ _ _ Hok) in Hn. tauto.
  - destruct (graph_ok_next g _ "" Hok Hkey) as (nxt & Hn & Hp).
    rewrite Hn. f_equal. tauto.
  - exact Hkey.
  - apply not_elem_of_empty.
  - apply walk_contigs_cap_starts. reflexivity.
Qed.

End NodeShape.

(** C6, as the code has it.  The assembler does not check k.  For k below
    two it builds the graph first; it returns the empty result when the
    graph is empty, as it is without reads, and otherwise the traversal
    raises an index error at the empty node.  For k below one every read
    adds an edge, so every non-empty sequence of reads ends in that error. *)
Theorem small_k_not_rejected (reads : list string) (k : Z) :
  k < 2 ->
  run_assembly reads k =
    match edges (make_graph reads k) with
    | [] => Ok (0, 0)
    | _ :: _ => Raise IndexError
    end /\
  (reads = [] -> run_assembly reads k = Ok (0, 0)) /\
  (k <= 0 -> reads <> [] -> run_assembly reads k = Raise IndexError).
Proof.
  intros Hk.
  assert (Hrun : run_assembly reads k =
                 match edges (make_graph reads k) with
                 | [] => Ok (0, 0)
                 | _ :: _ => Raise IndexError
                 end).
  { unfold run_assembly, walk_contigs. rewrite (walk_small_k reads k LENGTH_CAP Hk).
    destruct (edges (make_graph reads k)); reflexivity. }
  split; [exact Hrun|]. split.
  - intros ->. reflexivity.
  - intros Hk0 Hne. rewrite Hrun.
    destruct (edges (make_graph reads k)) as [|kc g] eqn:Hg; [|reflexivity].
    rewrite edges_make_graph in Hg. apply add_edges_nil in Hg.
    destruct reads as [|r reads']; [congruence|].
    pose proof (read_edges_past_end k r Hk0) as He.
    simpl in Hg. apply app_eq_nil in Hg as [Hg _]. rewrite Hg in He. inversion He.
Qed.

Lemma small_k_not_rejected_witness :
  run_assembly ["ACGT"] 1 = Raise IndexError /\
  run_assembly ["NN"] 1 = Ok (0, 0) /\
  run_assembly ["ACGT"] (-1) = Raise IndexError.
Proof.
  split; [|split].
  - rewrite (proj1 (small_k_not_rejected ["ACGT"] 1 ltac:(lia))). reflexivity.
  - rewrite (proj1 (small_k_not_rejected ["NN"] 1 ltac:(lia))). reflexivity.
  - apply (small_k_not_rejected ["ACGT"] (-1)); [lia|lia|discriminate].
Defined.

(** C6, as the specification words it, fails: with k = 1 and no reads the
    assembler returns a result instead of failing. *)
Lemma invalid_k_counterexample :
  ~ (forall (reads : list string) (k : Z),
        k < 2 -> exists e, run_assembly reads k = Raise e).
Proof.
  intros H. destruct (H [] 1 ltac:(lia)) as [e He]. vm_compute in He. discriminate.
Qed.

(** ** Seeds of the contigs *)

(** C10.  Every contig starts at a key of the adjacency mapping, that is at
    a node with an outgoing edge, and follows at least one edge: it is the
    k - 1 symbols of such a node followed by at least one more symbol, so
    it has at least k symbols. *)
Theorem contigs_start_at_keys (reads : list string) (k : Z) (contigs : list string) :
  walk_contigs (edges (make_graph reads k)) = Ok contigs ->
  Forall (fun c =>
            k <= Py.len c /\
            exists start ext,
              c = start ++ ext /\ Py.len start = k - 1 /\ 1 <= Py.len ext /\
              start ∈ dict_keys (edges (make_graph reads k)) /\
              is_Some (next_node (edges (make_graph reads k)) start)) contigs.
Proof.
  intros Hw. destruct (decide (k < 1)) as [Hk|Hk].
  - unfold walk_contigs in Hw. rewrite walk_small_k in Hw by lia.
    destruct (edges (make_graph reads k)); [|discriminate].
    injection Hw as <-. constructor.
  - pose proof (make_graph_lengths reads k ltac:(lia)) as Hok.
    apply (walk_contigs_Forall LENGTH_CAP (edges (make_graph reads k))); [|exact Hw].
    intros start seq' vis0 vis' Hs _ Hwalk.
    destruct (graph_ok_next _ _ start Hok Hs) as (nxt & Hn & Hlen & _).
    apply walks_len in Hwalk as [(ext & -> & Hext) _].
    specialize (Hext ltac:(rewrite Hn; eauto)). rewrite len_app.
    split; [lia|]. exists start, ext. rewrite Hn. eauto 10.
Qed.

Lemma contigs_start_at_keys_witness :
  Forall (fun c =>
            4 <= Py.len c /\
            exists start ext,
              c = start ++ ext /\ Py.len start = 4 - 1 /\ 1 <= Py.len ext /\
              start ∈ dict_keys (edges (make_graph ["GTTGC"; "ACGTT"; "CGTTG"; "TTGCA"] 4)) /\
              is_Some (next_node (edges (make_graph ["GTTGC"; "ACGTT"; "CGTTG"; "TTGCA"] 4)) start))
         ["GTTGCA"; "ACGTT"].
Proof.
  apply (contigs_start_at_keys ["GTTGC"; "ACGTT"; "CGTTG"; "TTGCA"] 4).
  vm_compute. reflexivity.
Defined.

(** ** Termination *)

(** C5.  The traversal of any graph terminates: from [walk_bound] on,
    every amount of fuel gives the same result, which is the value of the
    total function [walk_contigs_cap].  A walk that reaches a marked node
    ends its contig there and leaves the marks as they are.  On a graph
    whose nodes are not empty the traversal does not raise.  Every contig
    is spelled along a path of chosen edges whose nodes, the last one
    apart, are pairwise distinct: a walk leaves no node twice. *)
Theorem traversal_terminates (cap : Z) (g : Graph) :
  (forall fuel, (walk_bound g <= fuel)%nat ->
                walk_contigs_fuel cap g fuel = Some (walk_contigs_cap cap g)) /\
  (forall fuel cur seq vis nxt,
      next_node g cur = Some nxt -> nxt <> "" -> nxt ∈ vis ->
      walk_loop cap g (S fuel) cur seq vis = Some (Ok (seq ++ last_symbol nxt, vis))) /\
  ((forall t, t ∈ targets g -> t <> "") ->
   exists contigs, walk_contigs_cap cap g = Ok contigs) /\
  (forall contigs,
      walk_contigs_cap cap g = Ok contigs ->
      Forall (fun c => exists start p,
                  start ∈ dict_keys g /\ chain g start p /\ c = spell start p /\
                  NoDup (removelast (start :: p))) contigs).
Proof.
  split; [apply walk_contigs_fuel_total|]. split; [|split].
  - intros fuel cur seq vis nxt Hn Hne Hv.
    rewrite walk_loop_unfold, Hn, (getitem_last nxt Hne).
    case_decide; [reflexivity|contradiction].
  - intros Ht.
    apply (walk_starts_closed cap g (fun _ => True) (walk_bound g) (dict_keys g) [] ∅).
    + intros x nxt _ Hn. split; [|exact I]. apply Ht.
      apply next_node_target in Hn. unfold target_set in Hn.
      apply elem_of_list_to_set in Hn. exact Hn.
    + apply Forall_forall. auto.
    + auto.
    + apply walk_contigs_cap_starts. reflexivity.
  - intros contigs Hw. apply (walk_contigs_Forall cap g); [|exact Hw].
    intros start seq' vis0 vis' Hs Hv Hwalk.
    apply walks_path in Hwalk as (p & Hp & -> & Hnd & Hfresh).
    exists start, p. repeat split; try assumption.
    destruct p as [|y p]; [constructor|].
    change (removelast (start :: y :: p)) with (start :: removelast (y :: p)).
    constructor; [|exact Hnd]. intros Hin. apply Hfresh in Hin.
    apply Hin, elem_of_union. left. apply elem_of_singleton. reflexivity.
Qed.

(** A genome in which the node AC occurs twice: the walk from AC comes
    back to AC and stops there, with a contig shorter than the genome. *)
Lemma traversal_terminates_witness :
  let g := edges (make_graph ["ACGACGT"] 3) in
  walk_contigs_fuel LENGTH_CAP g (walk_bound g) = Some (Ok ["ACGAC"]) /\
  exists contigs, walk_contigs_cap LENGTH_CAP g = Ok contigs.
Proof.
  intros g. split.
  - rewrite (proj1 (traversal_terminates LENGTH_CAP g)) by reflexivity.
    vm_compute. reflexivity.
  - apply (traversal_terminates LENGTH_CAP g). intros t Ht.
    vm_compute in Ht.
    repeat (apply elem_of_cons in Ht as [->|Ht]; [discriminate|]). inversion Ht.
Defined.

(** * Further properties of [make_graph] *)

Section DictSums.
Context {V : Type}.

(** Assigning a key changes a sum over the items by the new item minus
    the item that it replaces. *)
Lemma dict_set_sum (F : V -> Z) (d : dict V) (k : string) (v : V) :
  Py.sum (List.map (fun kv => F kv.2) (dict_set d k v)) =
    Py.sum (List.map (fun kv => F kv.2) d) + F v -
    match dict_get d k with Some old => F old | None => 0 end.
Proof.
  induction d as [|[k0 v0] d IH]; simpl; [lia|].
  destruct (String.eqb_spec k k0) as [->|Hk]; simpl; [lia|].
  rewrite IH. lia.
Qed.

End DictSums.

Section DegreeFacts.

Lemma counter_total_incr (c : Counter) (b : string) :
  counter_total (counter_incr c b) = counter_total c + 1.
Proof.
  unfold counter_total, counter_incr.
  rewrite (dict_set_sum (fun n => n) c b). unfold counter_get.
  destruct (dict_get c b); cbn beta; lia.
Qed.

Lemma total_mult_incr (g : Graph) (a b : string) :
  total_mult (graph_incr g a b) = total_mult g + 1.
Proof.
  unfold total_mult, graph_incr. rewrite (dict_set_sum counter_total g a).
  rewrite counter_total_incr. destruct (dict_get g a); unfold counter_total; simpl; lia.
Qed.

Lemma out_total_incr (g : Graph) (a b a' : string) :
  out_total (graph_incr g a b) a' = out_total g a' + (if decide (a' = a) then 1 else 0).
Proof.
  unfold out_total, graph_incr. rewrite dict_get_set. case_decide as Ha; [|lia].
  subst a'. rewrite counter_total_incr. destruct (dict_get g a); unfold counter_total; simpl; lia.
Qed.

Lemma in_total_incr (g : Graph) (a b b' : string) :
  in_total (graph_incr g a b) b' = in_total g b' + (if decide (b' = b) then 1 else 0).
Proof.
  unfold in_total, graph_incr.
  rewrite (dict_set_sum (fun c => counter_get c b') g a), counter_get_incr.
  destruct (dict_get g a); unfold counter_get; simpl; lia.
Qed.

Lemma degrees_ok_empty : degrees_ok empty_state.
Proof. repeat split. Qed.

Lemma degrees_ok_add_window (r : string) (k : Z) (st : graph_state) (i : Z) :
  degrees_ok st -> degrees_ok (add_window r k st i).
Proof.
  intros (Hout & Hin & Hto & Hti). unfold add_window.
  destruct (Py.contains "N" (Py.slice r i (i + k))); [repeat split; assumption|].
  unfold degrees_ok. cbn [edges indeg outdeg]. repeat split.
  - intros a. rewrite counter_get_incr, out_total_incr, Hout. reflexivity.
  - intros b. rewrite counter_get_incr, in_total_incr, Hin. reflexivity.
  - rewrite counter_total_incr, total_mult_incr, Hto. reflexivity.
  - rewrite counter_total_incr, total_mult_incr, Hti. reflexivity.
Qed.

Lemma degrees_ok_add_read (k : Z) (st : graph_state) (r : string) :
  degrees_ok st -> degrees_ok (add_read k st r).
Proof.
  unfold add_read. destruct (Py.len r <? k); [auto|].
  generalize (Py.range (Py.len r - k + 1)). intros ixs. revert st.
  induction ixs as [|i ixs IH]; intros st Hst; simpl; [exact Hst|].
  apply IH, degrees_ok_add_window, Hst.
Qed.

Lemma degrees_ok_make_graph (reads : list string) (k : Z) :
  degrees_ok (make_graph reads k).
Proof.
  unfold make_graph. generalize degrees_ok_empty. generalize empty_state.
  induction reads as [|r reads IH]; intros st Hst; simpl; [exact Hst|].
  apply IH, degrees_ok_add_read, Hst.
Qed.

Lemma total_mult_add_edges (es : list (string * string)) (g : Graph) :
  total_mult (add_edges g es) = total_mult g + Z.of_nat (length es).
Proof.
  unfold add_edges. revert g. induction es as [|e es IH]; intros g; simpl; [lia|].
  rewrite IH, total_mult_incr. lia.
Qed.

Lemma length_omap_filter {A B} (f : A -> option B) (l : list A) :
  length (omap f l) = length (filter (fun x => is_Some (f x)) l).
Proof.
  unfold omap. induction l as [|x l IH]; simpl; [reflexivity|].
  destruct (f x) as [y|] eqn:Hf; simpl.
  - rewrite filter_cons_True by (rewrite Hf; eauto). simpl. congruence.
  - rewrite filter_cons_False by (rewrite Hf; intros [? [=]]). exact IH.
Qed.

End DegreeFacts.

Section OverlapFacts.

Lemma substring_0_all (s : string) : substring 0 (String.length s) s = s.
Proof. induction s as [|c s IH]; simpl; [reflexivity|]. rewrite IH. reflexivity. Qed.

Lemma substring_0_removelast (c : ascii) (s : string) :
  substring 0 (String.length s) (String c s) =
    String c (substring 0 (String.length s - 1) s) \/ s = "".
Proof.
  destruct s as [|d s]; [right; reflexivity|left]. simpl. rewrite Nat.sub_0_r. reflexivity.
Qed.

Lemma substring_0_idem (m : nat) (s : string) :
  substring 0 m (substring 0 m s) = substring 0 m s.
Proof.
  revert s. induction m as [|m IH]; intros [|c s]; simpl; try reflexivity.
  rewrite IH. reflexivity.
Qed.

(** Source and target of the edge of a window overlap: the source without
    its first symbol is the target without its last. *)
Lemma window_overlap (frag : string) :
  Py.slice_from (Py.slice_to frag (-1)) 1 = Py.slice_to (Py.slice_from frag 1) (-1).
Proof.
  rewrite (slice_from_one (Py.slice_to frag (-1))), (slice_to_minus_one (Py.slice_from frag 1)).
  rewrite length_slice_to_minus_one, length_slice_from_one.
  rewrite slice_to_minus_one, slice_from_one.
  destruct frag as [|c s]; [reflexivity|].
  cbn [String.length]. rewrite !Nat.sub_succ, !Nat.sub_0_r.
  change (substring 1 (String.length s) (String c s)) with (substring 0 (String.length s) s).
  rewrite substring_0_all.
  destruct (substring_0_removelast c s) as [->| ->]; [|reflexivity].
  change (substring 1 ?m (String c ?t)) with (substring 0 m t).
  apply substring_0_idem.
Qed.

Lemma contains_substring (c : ascii) (n m : nat) (s : string) :
  Py.contains c s = false -> Py.contains c (substring n m s) = false.
Proof.
  revert n m. induction s as [|d s IH]; intros [|n] [|m] Hs; simpl in *; try reflexivity.
  - destruct (Ascii.eqb c d); [discriminate|]. apply IH. exact Hs.
  - destruct (Ascii.eqb c d); [discriminate|]. apply IH. exact Hs.
  - destruct (Ascii.eqb c d); [discriminate|]. apply IH. exact Hs.
Qed.

Lemma read_edges_shape (k : Z) (r : string) (e : string * string) :
  e ∈ read_edges k r ->
  Py.slice_from e.1 1 = Py.slice_to e.2 (-1) /\
  Py.contains "N" e.1 = false /\ Py.contains "N" e.2 = false.
Proof.
  rewrite elem_of_read_edges. intros (_ & i & _ & He). unfold window_edge in He.
  destruct (Py.contains "N" (Py.slice r i (i + k))) eqn:HN; [discriminate|].
  injection He as <-. simpl. split; [apply window_overlap|].
  rewrite slice_to_minus_one, slice_from_one. split; apply contains_substring, HN.
Qed.

End OverlapFacts.

(** X1.  The degree tables agree with the adjacency mapping: [outdeg[a]] is
    the sum of the multiplicities of the edges that leave [a], and
    [indeg[b]] is the sum, over all sources, of the multiplicity of their
    edge to [b]. *)
Theorem degrees_match_edges (reads : list string) (k : Z) (x : string) :
  counter_get (outdeg (make_graph reads k)) x = out_total (edges (make_graph reads k)) x /\
  counter_get (indeg (make_graph reads k)) x = in_total (edges (make_graph reads k)) x.
Proof.
  destruct (degrees_ok_make_graph reads k) as (Hout & Hin & _). split; [apply Hout|apply Hin].
Qed.

(** X2.  The in-degrees, the out-degrees and the multiplicities all add up
    to the number of windows without N over all reads. *)
Theorem degree_totals (reads : list string) (k : nat) :
  let st := make_graph reads (Z.of_nat k) in
  let accepted :=
    Z.of_nat (length (filter (fun w => Py.contains "N"%char w = false)
                             (flat_map (windows k) reads))) in
  counter_total (indeg st) = accepted /\
  counter_total (outdeg st) = accepted /\
  total_mult (edges st) = accepted.
Proof.
  intros st accepted.
  destruct (degrees_ok_make_graph reads (Z.of_nat k)) as (_ & _ & Hto & Hti).
  fold st in Hto, Hti. rewrite Hto, Hti.
  assert (Ht : total_mult (edges st) = accepted); [|auto].
  unfold st, accepted. rewrite edges_make_graph, total_mult_add_edges.
  rewrite (flat_map_ext _ _ (read_edges_windows k)), flat_map_omap, length_omap_filter.
  unfold total_mult. simpl. rewrite Z.add_0_l. do 2 f_equal.
  apply list_filter_iff. intros w.
  unfold edge_of_window. destruct (Py.contains "N" w); split; intros H;
    try discriminate; eauto. destruct H as [? [=]].
Qed.

(** X3.  Graph construction adds up over a concatenation of reads: the
    multiplicity of an edge for [reads1 ++ reads2] is the sum of its
    multiplicities for [reads1] and for [reads2]. *)
Theorem multiplicities_add_up (reads1 reads2 : list string) (k : Z) (a b : string) :
  mult (edges (make_graph (reads1 ++ reads2) k)) a b =
    mult (edges (make_graph reads1 k)) a b + mult (edges (make_graph reads2 k)) a b.
Proof.
  rewrite !mult_make_graph, flat_map_app, filter_app, List.length_app. lia.
Qed.

(** X4.  Reads shorter than k leave no trace: dropping them from the input
    gives the same adjacency mapping and the same degree tables. *)
Theorem short_reads_ignored (reads : list string) (k : Z) :
  make_graph (filter (fun r => k <= Py.len r) reads) k = make_graph reads k.
Proof.
  unfold make_graph. generalize empty_state.
  induction reads as [|r reads IH]; intros st; [reflexivity|].
  rewrite filter_cons. case_decide as Hr; simpl.
  - apply IH.
  - rewrite IH. f_equal. unfold add_read.
    destruct (Z.ltb_spec (Py.len r) k); [reflexivity|lia].
Qed.

(** X5.  For k at least one, every edge of the graph joins two nodes of
    k - 1 symbols that overlap (the source without its first symbol is the
    target without its last), neither node contains N, the multiplicity
    is at least one, and no key has an empty counter. *)
Theorem edges_are_overlaps (reads : list string) (k : Z) (a : string) (c : Counter) :
  1 <= k ->
  dict_get (edges (make_graph reads k)) a = Some c ->
  c <> [] /\
  forall b n, (b, n) ∈ c ->
    1 <= n /\ Py.len a = k - 1 /\ Py.len b = k - 1 /\
    Py.slice_from a 1 = Py.slice_to b (-1) /\
    Py.contains "N"%char a = false /\ Py.contains "N"%char b = false.
Proof.
  intros Hk Hc.
  assert (Hok : graph_ok (fun a b =>
                  (Py.len a = k - 1 /\ Py.len b = k - 1) /\
                  Py.slice_from a 1 = Py.slice_to b (-1) /\
                  Py.contains "N"%char a = false /\ Py.contains "N"%char b = false)
                (edges (make_graph reads k))).
  { apply make_graph_ok. intros r e He. split.
    - apply (read_edges_len k r e Hk He).
    - apply (read_edges_shape k r e He). }
  destruct (graph_ok_get _ _ a c Hok Hc) as [Hne Hall]. split; [exact Hne|].
  intros b n Hb. destruct (Hall b n Hb) as [[[? ?] (? & ? & ?)] ?]. auto 10.
Qed.

Lemma edges_are_overlaps_witness :
  [("TTG", 2)] <> [] /\
  forall b n, (b, n) ∈ [("TTG", 2)] ->
    1 <= n /\ Py.len "GTT" = 4 - 1 /\ Py.len b = 4 - 1 /\
    Py.slice_from "GTT" 1 = Py.slice_to b (-1) /\
    Py.contains "N"%char "GTT" = false /\ Py.contains "N"%char b = false.
Proof.
  apply (edges_are_overlaps ["ACGTT"; "CGTTG"; "GTTGC"; "TTGCA"] 4 "GTT" [("TTG", 2)]).
  - lia.
  - vm_compute. reflexivity.
Defined.

(** * Further properties of the statistics *)

#[local] Instance Zge_trans : Transitive Z.ge.
Proof. intros x y z. lia. Qed.

#[local] Instance Zge_antisymm : AntiSymm (=) Z.ge.
Proof. intros x y. lia. Qed.

Section N50More.

Lemma sum_Permutation (l1 l2 : list Z) : l1 ≡ₚ l2 -> Py.sum l1 = Py.sum l2.
Proof. induction 1; simpl; lia. Qed.

Lemma sum_app (l1 l2 : list Z) : Py.sum (l1 ++ l2) = Py.sum l1 + Py.sum l2.
Proof. induction l1 as [|x l1 IH]; simpl; lia. Qed.

Lemma sorted_desc_Permutation (l1 l2 : list Z) :
  l1 ≡ₚ l2 -> sorted_desc l1 = sorted_desc l2.
Proof.
  intros Hp. apply (Sorted_unique Z.ge); try apply sorted_desc_sorted.
  rewrite !sorted_desc_perm. exact Hp.
Qed.

Lemma lengths_nonneg (contigs : list string) :
  Forall (fun x => 0 <= x) (sorted_desc (List.map Py.len contigs)).
Proof.
  rewrite sorted_desc_perm. apply Forall_forall. intros x Hx.
  apply list_elem_of_In, in_map_iff in Hx. destruct Hx as (c & <- & _).
  apply len_nonneg.
Qed.

(** The index at which the loop of [n50_of] stops. *)
Lemma n50_of_index (contigs : list string) :
  contigs <> [] ->
  let lengths := sorted_desc (List.map Py.len contigs) in
  exists (i : nat) (L : Z),
    lengths !! i = Some L /\ n50_of contigs = L /\
    Py.sum lengths <= 2 * Py.sum (take (S i) lengths) /\
    forall j, (j < i)%nat -> 2 * Py.sum (take (S j) lengths) < Py.sum lengths.
Proof.
  intros Hne lengths.
  pose proof (lengths_nonneg contigs) as Hpos. fold lengths in Hpos.
  assert (Hlen : (0 < length lengths)%nat).
  { unfold lengths. rewrite sorted_desc_perm, length_map.
    destruct contigs; [congruence|simpl; lia]. }
  destruct (n50_loop_first (Py.sum lengths) lengths 0 (length lengths - 1))
    as (j & L & Hj & Hn & Hreach & Hfirst).
  - replace (S (length lengths - 1)) with (length lengths) by lia.
    rewrite firstn_all. apply sum_nonneg in Hpos. lia.
  - lia.
  - exists j, L. split; [exact Hj|]. split; [|split; [lia|]].
    + unfold n50_of. fold lengths. destruct lengths; [simpl in Hlen; lia|exact Hn].
    + intros j' Hj'. specialize (Hfirst j' Hj'). lia.
Qed.

(** In a descending list, everything up to an index is at least the
    element there, and everything from it on is at most that element. *)
Lemma sorted_desc_split (l : list Z) (i : nat) (L : Z) :
  StronglySorted Z.ge l -> l !! i = Some L ->
  Forall (fun x => L <= x) (take (S i) l) /\ Forall (fun x => x <= L) (drop i l).
Proof.
  intros Hs. revert i. induction Hs as [|x l Hs IH Hx]; intros i Hi; [destruct i; discriminate|].
  destruct i as [|i]; simpl in Hi.
  - injection Hi as <-. simpl. rewrite take_0. split.
    + constructor; [lia|constructor].
    + constructor; [lia|]. eapply Forall_impl; [exact Hx|]. simpl. intros; lia.
  - destruct (IH i Hi) as [Ht Hd]. split; [|exact Hd].
    change (take (S (S i)) (x :: l)) with (x :: take (S i) l).
    constructor; [|exact Ht].
    rewrite Forall_forall in Hx. apply list_elem_of_lookup_2 in Hi.
    specialize (Hx L Hi). lia.
Qed.

Lemma sum_filter_le (P : Z -> Prop) `{forall x, Decision (P x)} (l : list Z) :
  Forall (fun x => 0 <= x) l -> 0 <= Py.sum (filter P l) <= Py.sum l.
Proof.
  induction 1 as [|x l Hx Hl IH]; [simpl; lia|].
  rewrite filter_cons. case_decide; simpl; lia.
Qed.

Lemma filter_all (P : Z -> Prop) `{forall x, Decision (P x)} (l : list Z) :
  Forall P l -> filter P l = l.
Proof.
  induction 1 as [|x l Hx Hl IH]; [reflexivity|].
  rewrite filter_cons_True by exact Hx. rewrite IH. reflexivity.
Qed.

Lemma filter_none (P : Z -> Prop) `{forall x, Decision (P x)} (l : list Z) :
  Forall (fun x => ~ P x) l -> filter P l = [].
Proof.
  induction 1 as [|x l Hx Hl IH]; [reflexivity|].
  rewrite filter_cons_False by exact Hx. exact IH.
Qed.

End N50More.

(** X6.  For a non-empty sequence of contigs, N50 is the length of one of
    the contigs. *)
Theorem n50_is_contig_length (contigs : list string) :
  contigs <> [] -> exists c, c ∈ contigs /\ n50_of contigs = Py.len c.
Proof.
  intros Hne. destruct (n50_of_index contigs Hne) as (i & L & Hi & Hn & _).
  apply list_elem_of_lookup_2 in Hi. rewrite sorted_desc_perm in Hi.
  apply list_elem_of_In, in_map_iff in Hi. destruct Hi as (c & Hc & Hin).
  exists c. split; [apply list_elem_of_In; exact Hin|congruence].
Qed.

Lemma n50_is_contig_length_witness :
  exists c, c ∈ ["GTTGCA"; "ACGTT"] /\ n50_of ["GTTGCA"; "ACGTT"] = Py.len c.
Proof. apply (n50_is_contig_length ["GTTGCA"; "ACGTT"]). discriminate. Defined.

(** X7.  N50 does not depend on the order of the contigs. *)
Theorem n50_permutation_invariant (contigs1 contigs2 : list string) :
  contigs1 ≡ₚ contigs2 -> n50_of contigs1 = n50_of contigs2.
Proof.
  intros Hp. unfold n50_of.
  rewrite (sorted_desc_Permutation (List.map Py.len contigs1) (List.map Py.len contigs2));
    [reflexivity|]. apply Permutation_map. exact Hp.
Qed.

Lemma n50_permutation_invariant_witness :
  n50_of ["ACGTT"; "GTTGCA"; "AC"] = n50_of ["AC"; "ACGTT"; "GTTGCA"].
Proof.
  apply n50_permutation_invariant. symmetry.
  apply (Permutation_cons_app ["ACGTT"; "GTTGCA"] []). reflexivity.
Defined.

(** X8.  N50 splits the assembly in the middle: the contigs of at least
    N50 symbols hold at least half of all symbols, and, unless the total
    is zero, the contigs of more than N50 symbols hold less than half. *)
Theorem n50_covers_half (contigs : list string) :
  let lengths := List.map Py.len contigs in
  Py.sum lengths <= 2 * Py.sum (filter (fun x => n50_of contigs <= x) lengths) /\
  (0 < Py.sum lengths ->
   2 * Py.sum (filter (fun x => n50_of contigs < x) lengths) < Py.sum lengths).
Proof.
  intros lengths. destruct contigs as [|c0 contigs']; [simpl; split; lia|].
  set (contigs := c0 :: contigs') in *.
  destruct (n50_of_index contigs ltac:(discriminate)) as (i & L & Hi & -> & Hreach & Hfirst).
  set (sorted := sorted_desc (List.map Py.len contigs)) in *.
  assert (Hperm : sorted ≡ₚ lengths) by apply sorted_desc_perm.
  assert (Hss : StronglySorted Z.ge sorted) by apply (StronglySorted_merge_sort Z.ge).
  pose proof (lengths_nonneg contigs) as Hpos. fold sorted in Hpos.
  destruct (sorted_desc_split sorted i L Hss Hi) as [Hhead Htail].
  rewrite <- !(sum_Permutation _ _ (filter_Permutation _ _ _ Hperm)).
  rewrite <- (sum_Permutation _ _ Hperm). split.
  - rewrite <- (take_drop (S i) sorted) at 2. rewrite filter_app, sum_app.
    rewrite (filter_all _ _ Hhead).
    assert (Forall (fun x => 0 <= x) (drop (S i) sorted)) as Hd by (apply Forall_drop, Hpos).
    pose proof (sum_filter_le (fun x => L <= x) _ Hd). lia.
  - intros Htot. rewrite <- (take_drop i sorted) at 1. rewrite filter_app, sum_app.
    rewrite (filter_none (fun x => L < x) (drop i sorted)).
    2:{ eapply Forall_impl; [exact Htail|]. simpl. intros; lia. }
    assert (Forall (fun x => 0 <= x) (take i sorted)) as Ht by (apply Forall_take, Hpos).
    pose proof (sum_filter_le (fun x => L < x) _ Ht). simpl.
    destruct i as [|i]; [rewrite take_0 in *; simpl in *; lia|].
    specialize (Hfirst i ltac:(lia)). lia.
Qed.

(** * Further properties of the traversal *)

Section ContigCount.
Variable cap : Z.
Variable g : Graph.

Lemma walk_starts_length fuel starts contigs vis cs :
  walk_starts cap g fuel starts contigs vis = Some (Ok cs) ->
  (length contigs <= length cs <= length contigs + length starts)%nat.
Proof.
  revert contigs vis. induction starts as [|start starts IH]; intros contigs vis; simpl.
  - intros [= <-]. lia.
  - case_decide.
    + intros Hw. apply IH in Hw. lia.
    + destruct (walk_loop cap g fuel start start ({[start]} ∪ vis))
        as [[[seq' vis']|e]|]; try discriminate.
      intros Hw. apply IH in Hw. rewrite List.length_app in Hw. simpl in Hw. lia.
Qed.

Lemma walk_starts_first fuel start starts contigs vis cs :
  start ∉ vis ->
  walk_starts cap g fuel (start :: starts) contigs vis = Some (Ok cs) ->
  (length contigs < length cs)%nat.
Proof.
  intros Hv. simpl. case_decide; [contradiction|].
  destruct (walk_loop cap g fuel start start ({[start]} ∪ vis))
    as [[[seq' vis']|e]|]; try discriminate.
  intros Hw. apply walk_starts_length in Hw. rewrite List.length_app in Hw. simpl in Hw. lia.
Qed.

(** There are at most as many contigs as keys, and none only for the
    empty graph. *)
Lemma walk_contigs_count (contigs : list string) :
  walk_contigs_cap cap g = Ok contigs ->
  (length contigs <= length g)%nat /\ (contigs = [] <-> g = []).
Proof.
  intros Hw. apply walk_contigs_cap_starts in Hw. split.
  - apply walk_starts_length in Hw. unfold dict_keys in Hw.
    rewrite length_map in Hw. simpl in Hw. lia.
  - split.
    + intros ->. destruct (dict_keys g) as [|s ss] eqn:Hkeys.
      * apply (map_eq_nil fst). exact Hkeys.
      * apply walk_starts_first in Hw; [simpl in Hw; lia|apply not_elem_of_empty].
    + intros Hg. rewrite Hg in Hw. simpl in Hw. congruence.
Qed.

Lemma walk_contigs_ok :
  (forall t, t ∈ targets g -> t <> "") -> exists contigs, walk_contigs_cap cap g = Ok contigs.
Proof.
  intros Ht.
  apply (walk_starts_closed cap g (fun _ => True) (walk_bound g) (dict_keys g) [] ∅).
  - intros x nxt _ Hn. split; [|exact I]. apply Ht.
    apply next_node_target in Hn. unfold target_set in Hn.
    apply elem_of_list_to_set in Hn. exact Hn.
  - apply Forall_forall. auto.
  - auto.
  - apply walk_contigs_cap_starts. reflexivity.
Qed.

End ContigCount.

Section LargeK.
Variable reads : list string.
Variable k : Z.
Hypothesis k_ge_2 : 2 <= k.

Lemma make_graph_targets_nonempty (t : string) :
  t ∈ targets (edges (make_graph reads k)) -> t <> "".
Proof.
  intros Ht. unfold targets in Ht.
  apply list_elem_of_In, in_flat_map in Ht as ([a c] & Hac & Ht).
  apply list_elem_of_In in Hac. simpl in Ht. unfold dict_keys in Ht.
  apply in_map_iff in Ht as ([b n] & <- & Hb). apply list_elem_of_In in Hb.
  pose proof (make_graph_lengths reads k ltac:(lia)) as Hok.
  unfold graph_ok in Hok. rewrite Forall_forall in Hok.
  destruct (Hok _ Hac) as [_ Hc]. rewrite Forall_forall in Hc.
  destruct (Hc _ Hb) as [[_ Hlen] _]. simpl in Hlen |- *.
  intros Hb0. rewrite Hb0 in Hlen. unfold Py.len in Hlen. simpl in Hlen. lia.
Qed.

Lemma contigs_len_ge_k (cap : Z) (contigs : list string) :
  walk_contigs_cap cap (edges (make_graph reads k)) = Ok contigs ->
  Forall (fun c => k <= Py.len c) contigs.
Proof.
  intros Hw. pose proof (make_graph_lengths reads k ltac:(lia)) as Hok.
  apply (walk_contigs_Forall cap (edges (make_graph reads k))); [|exact Hw].
  intros start seq' vis0 vis' Hs _ Hwalk.
  destruct (graph_ok_next _ _ start Hok Hs) as (nxt & Hn & Hlen & _).
  apply walks_len in Hwalk as [(ext & -> & Hext) _].
  specialize (Hext ltac:(rewrite Hn; eauto)). rewrite len_app. lia.
Qed.

End LargeK.

(** X9.  For k at least two the assembler never raises.  It reports at
    most as many contigs as the graph has keys, no contig only when the
    graph is empty (and then N50 is zero), and otherwise an N50 of at
    least k. *)
Theorem run_assembly_succeeds (reads : list string) (k : Z) :
  2 <= k ->
  exists n50 n,
    run_assembly reads k = Ok (n50, n) /\
    0 <= n <= Z.of_nat (length (edges (make_graph reads k))) /\
    (n = 0 <-> edges (make_graph reads k) = []) /\
    (n = 0 -> n50 = 0) /\
    (0 < n -> k <= n50).
Proof.
  intros Hk.
  destruct (walk_contigs_ok LENGTH_CAP (edges (make_graph reads k))
              (make_graph_targets_nonempty reads k Hk)) as [contigs Hw].
  exists (n50_of contigs), (Z.of_nat (length contigs)).
  destruct (walk_contigs_count _ _ _ Hw) as [Hle Hnil].
  pose proof (contigs_len_ge_k reads k Hk _ _ Hw) as Hlen.
  split; [unfold run_assembly, walk_contigs; rewrite Hw; reflexivity|].
  split; [lia|]. split; [|split].
  - rewrite <- Hnil. destruct contigs; simpl; split; intros; try congruence; lia.
  - destruct contigs; [reflexivity|simpl; lia].
  - intros Hn. destruct (n50_of_index contigs) as (i & L & Hi & -> & _).
    { destruct contigs; [simpl in Hn; lia|discriminate]. }
    apply list_elem_of_lookup_2 in Hi. rewrite sorted_desc_perm in Hi.
    apply list_elem_of_In, in_map_iff in Hi. destruct Hi as (c & <- & Hin).
    rewrite Forall_forall in Hlen. apply Hlen, list_elem_of_In, Hin.
Qed.

Lemma run_assembly_succeeds_witness :
  exists n50 n,
    run_assembly ["GTTGC"; "ACGTT"; "CGTTG"; "TTGCA"] 4 = Ok (n50, n) /\
    0 <= n <= Z.of_nat (length (edges (make_graph ["GTTGC"; "ACGTT"; "CGTTG"; "TTGCA"] 4))) /\
    (n = 0 <-> edges (make_graph ["GTTGC"; "ACGTT"; "CGTTG"; "TTGCA"] 4) = []) /\
    (n = 0 -> n50 = 0) /\
    (0 < n -> 4 <= n50).
Proof. apply (run_assembly_succeeds ["GTTGC"; "ACGTT"; "CGTTG"; "TTGCA"] 4). lia. Defined.

Section Coverage.
Variable cap : Z.
Variable g : Graph.

(** The nodes that a walk marks lie on its path. *)
Lemma walks_marks cur seq vis seq' vis' :
  walks cap g cur seq vis (Ok (seq', vis')) ->
  exists p, chain g cur p /\ seq' = spell seq p /\
            forall x, x ∈ vis' -> x ∈ vis \/ x ∈ p.
Proof.
  intros H. remember (Ok (seq', vis')) as r eqn:Hr. revert seq' vis' Hr.
  induction H as [cur seq vis Hn|cur seq vis Hn|cur seq vis nxt Hn Hne Hv
                 |cur seq vis nxt Hn Hne Hv Hc|cur seq vis nxt r Hn Hne Hv Hc Hw IH];
    intros seq' vis' Hr; simplify_eq.
  - exists []. simpl. auto.
  - exists [nxt]. simpl. auto.
  - exists [nxt]. simpl. repeat split; [exact Hn|].
    intros x [->%elem_of_singleton|Hx]%elem_of_union; [right; left|auto].
  - destruct (IH _ _ eq_refl) as (p & Hp & -> & Hmarks).
    exists (nxt :: p). simpl. repeat split; [exact Hn|exact Hp|].
    intros x Hx. destruct (Hmarks x Hx) as [[->%elem_of_singleton|Hx']%elem_of_union|Hx'].
    + right. left.
    + auto.
    + right. right. exact Hx'.
Qed.

Lemma on_path_app (contigs more : list string) (x : string) :
  on_path g contigs x -> on_path g (contigs ++ more) x.
Proof.
  intros (c & start & p & Hc & H). exists c, start, p.
  split; [apply elem_of_app; auto|exact H].
Qed.

Lemma walk_starts_on_path fuel starts contigs vis cs :
  (forall s, s ∈ starts -> s ∈ dict_keys g) ->
  (forall x, x ∈ vis -> on_path g contigs x) ->
  walk_starts cap g fuel starts contigs vis = Some (Ok cs) ->
  (forall x, on_path g contigs x -> on_path g cs x) /\
  (forall s, s ∈ starts -> on_path g cs s).
Proof.
  revert contigs vis.
  induction starts as [|start starts IH]; intros contigs vis Hkeys Hvis; simpl.
  - intros [= <-]. split; [auto|]. intros s Hs. inversion Hs.
  - assert (Hkeys' : forall s, s ∈ starts -> s ∈ dict_keys g)
      by (intros s Hs; apply Hkeys; right; exact Hs).
    case_decide as Hv.
    + intros Hw. destruct (IH contigs vis Hkeys' Hvis Hw) as [Hmono Hcov].
      split; [exact Hmono|]. intros s [->|Hs]%elem_of_cons; auto.
    + destruct (walk_loop cap g fuel start start ({[start]} ∪ vis))
        as [[[seq' vis']|e]|] eqn:Hl; try discriminate.
      apply walk_loop_walks, walks_marks in Hl as (p & Hp & -> & Hmarks).
      assert (Hnew : forall x, x ∈ start :: p -> on_path g (contigs ++ [spell start p]) x).
      { intros x Hx. exists (spell start p), start, p.
        repeat split; try assumption.
        - apply elem_of_app. right. left.
        - apply Hkeys. left. }
      intros Hw. destruct (IH (contigs ++ [spell start p])%list vis' Hkeys') with (2 := Hw)
        as [Hmono Hcov].
      { intros x Hx. destruct (Hmarks x Hx) as [[->%elem_of_singleton|Hx']%elem_of_union|Hx'].
        - apply Hnew. left.
        - apply on_path_app, Hvis, Hx'.
        - apply Hnew. right. exact Hx'. }
      split.
      * intros x Hx. apply Hmono, on_path_app, Hx.
      * intros s [->|Hs]%elem_of_cons; [apply Hmono, Hnew; left|auto].
Qed.

End Coverage.

(** X10.  The traversal covers the graph: every key of the adjacency
    mapping lies on the path of some contig, either as its seed or as a
    node that the walk moved to. *)
Theorem every_key_on_a_path (g : Graph) (contigs : list string) (x : string) :
  walk_contigs g = Ok contigs -> x ∈ dict_keys g -> on_path g contigs x.
Proof.
  intros Hw Hx. apply walk_contigs_cap_starts in Hw.
  eapply (walk_starts_on_path LENGTH_CAP g); [| |exact Hw|exact Hx].
  - auto.
  - intros y Hy. apply not_elem_of_empty in Hy. contradiction.
Qed.

Lemma every_key_on_a_path_witness :
  on_path (edges (make_graph ["GTTGC"; "ACGTT"; "CGTTG"; "TTGCA"] 4))
          ["GTTGCA"; "ACGTT"] "CGT".
Proof.
  apply every_key_on_a_path.
  - vm_compute. reflexivity.
  - apply (bool_decide_unpack _). vm_compute. exact I.
Defined.

Section AppendFacts.

Lemma append_cons (c : ascii) (s t : string) : String c s ++ t = String c (s ++ t).
Proof. reflexivity. Qed.

Lemma append_eq_empty (s t : string) : s ++ t = "" -> s = "" /\ t = "".
Proof. destruct s; [auto|discriminate]. Qed.

(** Equal strings with right parts of equal length have equal parts. *)
Lemma append_inj_r (a b c d : string) :
  a ++ b = c ++ d -> String.length b = String.length d -> a = c /\ b = d.
Proof.
  revert c. induction a as [|x a IH]; intros c Heq Hlen.
  - change ("" ++ b) with b in Heq. subst b. rewrite length_app in Hlen.
    assert (c = "") as -> by (apply length_zero_empty; lia). auto.
  - destruct c as [|y c].
    + change ("" ++ d) with d in Heq. subst d.
      rewrite append_cons in Hlen. simpl in Hlen. rewrite length_app in Hlen. lia.
    + rewrite !append_cons in Heq. injection Heq as -> Heq.
      destruct (IH c Heq Hlen) as [-> ->]. auto.
Qed.

(** How a split of a string with a last symbol sits relative to it. *)
Lemma append_snoc_cases (pre post seq ch : string) :
  pre ++ post = seq ++ ch -> String.length ch = 1%nat ->
  post = "" \/ exists post', post = post' ++ ch /\ seq = pre ++ post'.
Proof.
  revert seq. induction pre as [|x pre IH]; intros seq Heq Hch.
  - right. exists seq. auto.
  - destruct seq as [|y seq].
    + change ("" ++ ch) with ch in Heq. subst ch. rewrite append_cons in Hch.
      simpl in Hch. injection Hch as Hch. apply length_zero_empty in Hch.
      apply append_eq_empty in Hch as [_ ->]. auto.
    + rewrite !append_cons in Heq. injection Heq as -> Heq.
      destruct (IH seq Heq Hch) as [->|(post' & -> & ->)]; [auto|].
      right. exists post'. auto.
Qed.

Lemma substring_prefix (k : nat) (r : string) : exists post, r = substring 0 k r ++ post.
Proof.
  revert k. induction r as [|c r IH]; intros [|k].
  - exists "". reflexivity.
  - exists "". reflexivity.
  - exists (String c r). reflexivity.
  - destruct (IH k) as [post Hr]. exists post. cbn [substring].
    rewrite append_cons. f_equal. exact Hr.
Qed.

Lemma occurs_in_substring (i k : nat) (r : string) : occurs_in (substring i k r) r.
Proof.
  revert i. induction r as [|c r IH]; intros [|i].
  - exists "", "". destruct k; reflexivity.
  - exists "", "". destruct k; reflexivity.
  - destruct (substring_prefix k (String c r)) as [post Hr]. exists "", post. exact Hr.
  - destruct (IH i) as (pre & post & Hr). exists (String c pre), post.
    cbn [substring]. rewrite append_cons. f_equal. exact Hr.
Qed.

(** A string with at least two symbols is its part without the last
    symbol followed by the last symbol of its part without the first. *)
Lemma removelast_last (t : string) :
  t <> "" -> substring 0 (String.length t - 1) t ++ last_symbol t = t.
Proof.
  induction t as [|d t IH]; [congruence|]. intros _.
  destruct t as [|e t]; [reflexivity|].
  unfold last_symbol in *. cbn [String.length] in *.
  rewrite !Nat.sub_succ, !Nat.sub_0_r in *.
  cbn [substring]. rewrite append_cons. f_equal.
  cbn [substring] in IH. apply IH. discriminate.
Qed.

Lemma window_rejoin (w : string) :
  (2 <= String.length w)%nat ->
  Py.slice_to w (-1) ++ last_symbol (Py.slice_from w 1) = w /\
  exists c, w = String c (Py.slice_from w 1).
Proof.
  intros Hw. rewrite slice_to_minus_one, slice_from_one.
  destruct w as [|c t]; [simpl in Hw; lia|]. cbn [String.length] in *.
  rewrite !Nat.sub_succ, !Nat.sub_0_r.
  change (substring 1 (String.length t) (String c t)) with (substring 0 (String.length t) t).
  rewrite substring_0_all. split; [|eauto].
  destruct (substring_0_removelast c t) as [->| ->]; [|simpl in Hw; lia].
  rewrite append_cons. f_equal. apply removelast_last.
  intros ->. simpl in Hw. lia.
Qed.

End AppendFacts.

Section ObservedKmers.
Variable reads : list string.
Variable k : Z.
Hypothesis k_ge_2 : 2 <= k.

Lemma read_edges_seen (r : string) (e : string * string) :
  r ∈ reads -> e ∈ read_edges k r -> edge_seen reads k e.1 e.2.
Proof.
  intros Hr He. pose proof (read_edges_len k r e ltac:(lia) He) as [Hl1 Hl2].
  apply elem_of_read_edges in He as (Hk & i & Hi & He). unfold window_edge in He.
  destruct (Py.contains "N" (Py.slice r i (i + k))); [discriminate|].
  injection He as <-. simpl in *.
  rewrite slice_window in * by lia.
  set (w := substring (Z.to_nat i) (Z.to_nat k) r) in *.
  assert (Hw : (2 <= String.length w)%nat).
  { unfold w. rewrite length_substring. unfold Py.len in *. lia. }
  destruct (window_rejoin w Hw) as [Hjoin Hc].
  unfold edge_seen. rewrite Hjoin. repeat split.
  - exists r. split; [exact Hr|apply occurs_in_substring].
  - exact Hl1.
  - intros Hb. rewrite Hb in Hl2. unfold Py.len in Hl2. simpl in Hl2. lia.
  - exact Hc.
Qed.

Lemma make_graph_seen : graph_ok (edge_seen reads k) (edges (make_graph reads k)).
Proof.
  rewrite edges_make_graph. apply add_edges_ok; [constructor|].
  apply Forall_forall. intros e He. apply list_elem_of_In, in_flat_map in He.
  destruct He as (r & Hr & He). apply list_elem_of_In in Hr, He.
  apply (read_edges_seen r e Hr He).
Qed.

Lemma step_observed (x cur seq nxt : string) :
  seq = x ++ cur -> edge_seen reads k cur nxt -> kmers_observed reads k seq ->
  kmers_observed reads k (seq ++ last_symbol nxt).
Proof.
  intros Hseq (Hobs & Hlen & Hne & _) Hk w (pre & post & Hw) Hlw.
  rewrite <- append_assoc in Hw. symmetry in Hw.
  pose proof (len_last_symbol nxt Hne) as Hch.
  destruct (append_snoc_cases _ _ _ _ Hw) as [->|(post' & -> & Hs)].
  - unfold Py.len in Hch. lia.
  - rewrite append_nil_r in Hw. rewrite Hseq, append_assoc in Hw.
    apply append_inj_r in Hw as [_ ->]; [exact Hobs|].
    rewrite length_app. unfold Py.len in *. lia.
  - apply Hk; [|exact Hlw]. exists pre, post'. rewrite Hs, append_assoc. reflexivity.
Qed.

Lemma walks_observed (cap : Z) cur seq vis seq' vis' :
  walks cap (edges (make_graph reads k)) cur seq vis (Ok (seq', vis')) ->
  (exists x, seq = x ++ cur) -> kmers_observed reads k seq ->
  kmers_observed reads k seq'.
Proof.
  intros H. remember (Ok (seq', vis')) as r eqn:Hr. revert seq' vis' Hr.
  pose proof make_graph_seen as Hok.
  induction H as [cur seq vis Hn|cur seq vis Hn|cur seq vis nxt Hn Hne Hv
                 |cur seq vis nxt Hn Hne Hv Hc|cur seq vis nxt r Hn Hne Hv Hc Hw IH];
    intros seq' vis' Hr [x Hx] Hk; simplify_eq.
  - exact Hk.
  - eapply step_observed; [reflexivity| |exact Hk]. eapply graph_ok_edge; eassumption.
  - eapply step_observed; [reflexivity| |exact Hk]. eapply graph_ok_edge; eassumption.
  - pose proof (graph_ok_edge _ _ _ _ Hok Hn) as Hseen.
    apply (IH _ _ eq_refl).
    + destruct Hseen as (_ & _ & _ & c & Hc').
      exists (x ++ String c ""). rewrite !append_assoc, Hc'. reflexivity.
    + eapply step_observed; [reflexivity|exact Hseen|exact Hk].
Qed.

Lemma contigs_kmers_observed (cap : Z) (contigs : list string) :
  walk_contigs_cap cap (edges (make_graph reads k)) = Ok contigs ->
  Forall (kmers_observed reads k) contigs.
Proof.
  intros Hw. apply (walk_contigs_Forall cap (edges (make_graph reads k))); [|exact Hw].
  intros start seq' vis0 vis' Hs _ Hwalk.
  apply (walks_observed cap start start _ seq' vis' Hwalk); [exists ""; reflexivity|].
  destruct (graph_ok_next _ _ start make_graph_seen Hs) as (nxt & _ & _ & Hlen & _).
  intros w (pre & post & Hw') Hlw. exfalso.
  apply (f_equal String.length) in Hw'. rewrite !length_app in Hw'.
  unfold Py.len in *. lia.
Qed.

End ObservedKmers.

(** X11.  For k at least two, a contig holds no k-mer that was not read:
    every run of k consecutive symbols of every contig occurs, as it is,
    in one of the reads. *)
Theorem contigs_hold_read_kmers (reads : list string) (k : Z)
    (contigs : list string) (c w : string) :
  2 <= k ->
  walk_contigs (edges (make_graph reads k)) = Ok contigs ->
  c ∈ contigs -> occurs_in w c -> Py.len w = k ->
  observed reads w.
Proof.
  intros Hk Hw Hc Hocc Hlen.
  pose proof (contigs_kmers_observed reads k Hk LENGTH_CAP contigs Hw) as Hall.
  rewrite Forall_forall in Hall. apply (Hall c Hc w Hocc Hlen).
Qed.

Lemma contigs_hold_read_kmers_witness :
  observed ["GTTGC"; "ACGTT"; "CGTTG"; "TTGCA"] "TTGC".
Proof.
  apply (contigs_hold_read_kmers ["GTTGC"; "ACGTT"; "CGTTG"; "TTGCA"] 4
           ["GTTGCA"; "ACGTT"] "GTTGCA" "TTGC").
  - lia.
  - vm_compute. reflexivity.
  - left.
  - exists "G", "A". reflexivity.
  - reflexivity.
Defined.

(** * Properties of [build_sequence] *)

Section BuildSequence.

Lemma length_slice_to (s : string) (hi : Z) :
  0 <= hi -> String.length (Py.slice_to s hi) = Nat.min (Z.to_nat hi) (String.length s).
Proof.
  intros Hhi. unfold Py.slice_to, Py.slice, Py.adjust_index, Py.len.
  destruct (Z.ltb_spec hi 0); [lia|]. simpl. rewrite length_substring. lia.
Qed.

Lemma slice_to_prefix (s : string) (hi : Z) :
  0 <= hi -> Py.slice_to s hi = substring 0 (Nat.min (Z.to_nat hi) (String.length s)) s.
Proof.
  intros Hhi. unfold Py.slice_to, Py.slice, Py.adjust_index, Py.len.
  destruct (Z.ltb_spec hi 0); [lia|]. simpl. f_equal; lia.
Qed.

(** The copies of the motif reach beyond the requested length. *)
Lemma reps_enough (length m : Z) :
  0 <= length -> 0 < m -> length < m * (length / m + 1) /\ 1 <= length / m + 1.
Proof.
  intros Hl Hm. pose proof (Z.mul_succ_div_gt length m Hm).
  pose proof (Z.div_pos length m Hl Hm). lia.
Qed.

Lemma get_mul (s : string) (n i : nat) :
  (i < String.length s * n)%nat ->
  String.get i (Nat.iter n (String.append s) "") = String.get (i mod String.length s) s.
Proof.
  revert i. induction n as [|n IH]; intros i Hi; [lia|]. simpl.
  destruct (Nat.lt_ge_cases i (String.length s)) as [Hlt|Hge].
  - rewrite <- append_correct1 by exact Hlt. rewrite Nat.mod_small by exact Hlt. reflexivity.
  - replace i with ((i - String.length s) + String.length s)%nat at 1 by lia.
    rewrite <- append_correct2. rewrite IH by lia.
    replace i with ((i - String.length s) + 1 * String.length s)%nat at 2 by lia.
    rewrite Nat.Div0.mod_add. reflexivity.
Qed.

End BuildSequence.

(** X12.  [build_sequence] fails with a division by zero on the empty
    motif; on any other motif it returns exactly [length] symbols, none
    when [length] is negative. *)
Theorem build_sequence_length (length : Z) (motif : string) :
  (motif = "" -> build_sequence length motif = ZeroDivisionError) /\
  (motif <> "" ->
   exists s, build_sequence length motif = Value s /\ Py.len s = Z.max 0 length).
Proof.
  split; [intros ->; reflexivity|]. intros Hm. unfold build_sequence.
  assert (Hlen : 0 < Py.len motif).
  { pose proof (len_nonneg motif). rewrite <- len_zero_empty in Hm. lia. }
  destruct (Z.eqb_spec (Py.len motif) 0); [lia|].
  eexists. split; [reflexivity|]. unfold Py.len at 1.
  destruct (Z.le_gt_cases 0 length) as [Hl|Hl].
  - rewrite length_slice_to by exact Hl. rewrite length_mul.
    destruct (reps_enough length (Py.len motif) Hl Hlen) as [Hr1 Hr2].
    unfold Py.len in *. nia.
  - assert (Hreps : length / Py.len motif + 1 <= 0).
    { pose proof (Z.div_lt_upper_bound length (Py.len motif) 0 Hlen). lia. }
    assert (Hmul : Py.mul motif (length / Py.len motif + 1) = "").
    { apply length_zero_empty. rewrite length_mul. lia. }
    rewrite Hmul. unfold Py.slice_to, Py.slice, Py.adjust_index, Py.len. simpl.
    destruct (length <? 0); simpl; destruct (Z.to_nat _); simpl; lia.
Qed.

Lemma build_sequence_length_witness :
  build_sequence 7 "" = ZeroDivisionError /\
  exists s, build_sequence 10 "ATGCGT" = Value s /\ Py.len s = Z.max 0 10.
Proof.
  split.
  - apply (build_sequence_length 7 ""). reflexivity.
  - apply (build_sequence_length 10 "ATGCGT"). discriminate.
Defined.

(** X13.  The sequence built from a motif repeats it: its symbol at
    position [i] is the symbol of the motif at [i] modulo the length of
    the motif. *)
Theorem build_sequence_periodic (length : Z) (motif : string) (i : Z) :
  motif <> "" -> 0 <= i < length ->
  exists s, build_sequence length motif = Value s /\
            String.get (Z.to_nat i) s = String.get (Z.to_nat (i mod Py.len motif)) motif.
Proof.
  intros Hm Hi. unfold build_sequence.
  assert (Hlen : 0 < Py.len motif).
  { pose proof (len_nonneg motif). rewrite <- len_zero_empty in Hm. lia. }
  destruct (Z.eqb_spec (Py.len motif) 0); [lia|].
  eexists. split; [reflexivity|].
  destruct (reps_enough length (Py.len motif) ltac:(lia) Hlen) as [Hr1 Hr2].
  rewrite slice_to_prefix by lia. rewrite length_mul.
  assert (Hi' : (Z.to_nat i < String.length motif * Z.to_nat (length / Py.len motif + 1))%nat)
    by (unfold Py.len in *; nia).
  rewrite substring_correct1 by lia. rewrite Nat.add_0_r.
  unfold Py.mul. rewrite get_mul by exact Hi'.
  f_equal. unfold Py.len. rewrite Z2Nat.inj_mod by lia. rewrite Nat2Z.id. reflexivity.
Qed.

Lemma build_sequence_periodic_witness :
  exists s, build_sequence 10 "ATGCGT" = Value s /\
            String.get (Z.to_nat 8) s = String.get (Z.to_nat (8 mod Py.len "ATGCGT")) "ATGCGT".
Proof. apply (build_sequence_periodic 10 "ATGCGT" 8); [discriminate|lia]. Defined.

(** * Properties of [gc_percent] *)

Lemma count_in_nonneg (symbols : list ascii) (seq : string) : 0 <= count_in symbols seq.
Proof.
  induction seq as [|b seq IH]; simpl; [lia|].
  destruct (existsb (Ascii.eqb b) symbols); lia.
Qed.

(** X14.  The GC content lies between 0 and 100; it is 0 exactly when the
    sequence has no G and no C (in particular when it has none of the four
    symbols), and 100 exactly when it has a G or C but no A and no T.
    Other symbols do not count. *)
Theorem gc_percent_bounds (seq : string) :
  let gc := count_in ["G"; "C"]%char seq in
  let at_ := count_in ["A"; "T"]%char seq in
  (0 <= gc_percent seq <= 100)%Q /\
  ((gc_percent seq == 0)%Q <-> gc = 0) /\
  ((gc_percent seq == 100)%Q <-> at_ = 0 /\ 0 < gc).
Proof.
  intros gc at_. unfold gc_percent. fold gc at_.
  pose proof (count_in_nonneg ["G"; "C"]%char seq) as Hgc.
  pose proof (count_in_nonneg ["A"; "T"]%char seq) as Hat.
  fold gc in Hgc. fold at_ in Hat.
  destruct (Z.eqb_spec (gc + at_) 0) as [H0|H0].
  - repeat split; try discriminate; intros; try lia; try reflexivity.
  - destruct (gc + at_) as [|p|p] eqn:Htot; [lia| |lia].
    unfold Qle, Qeq, Qdiv, Qmult, Qinv, inject_Z. simpl.
    repeat split; intros; try nia.
Qed.

(** * Properties of [make_reads] *)

Section Infixes.

Lemma occurs_in_refl (s : string) : occurs_in s s.
Proof. exists "", "". rewrite append_nil_r. reflexivity. Qed.

Lemma occurs_in_trans (w r s : string) : occurs_in w r -> occurs_in r s -> occurs_in w s.
Proof.
  intros (p1 & q1 & ->) (p2 & q2 & ->). exists (p2 ++ p1), (q1 ++ q2).
  rewrite !append_assoc. reflexivity.
Qed.

Lemma occurs_in_slice (s : string) (lo hi : Z) : occurs_in (Py.slice s lo hi) s.
Proof. apply occurs_in_substring. Qed.

Lemma substring_app_l (i k : nat) (r post : string) :
  (i + k <= String.length r)%nat -> substring i k (r ++ post) = substring i k r.
Proof.
  revert i k. induction r as [|c r IH]; intros i k Hik; simpl in Hik.
  - assert (i = 0 /\ k = 0)%nat as [-> ->] by lia. destruct post; reflexivity.
  - rewrite append_cons. destruct i as [|i].
    + destruct k as [|k]; [reflexivity|]. cbn [substring]. rewrite IH by lia. reflexivity.
    + cbn [substring]. apply IH. lia.
Qed.

Lemma substring_app_r (i k : nat) (pre t : string) :
  substring (String.length pre + i) k (pre ++ t) = substring i k t.
Proof. induction pre as [|c pre IH]; [reflexivity|]. rewrite append_cons. exact IH. Qed.

Lemma elem_of_windows (k : nat) (w r : string) :
  w ∈ windows k r <-> exists i, (i + k <= String.length r)%nat /\ w = substring i k r.
Proof.
  unfold windows. destruct (Nat.leb_spec k (String.length r)) as [Hle|Hgt].
  - rewrite list_elem_of_In, in_map_iff. split.
    + intros (i & <- & Hi). apply in_seq in Hi. exists i. split; [lia|reflexivity].
    + intros (i & Hi & ->). exists i. split; [reflexivity|]. apply in_seq. lia.
  - split; [intros H; inversion H|]. intros (i & Hi & _). lia.
Qed.

(** A window of a string that occurs in [s] is a window of [s]. *)
Lemma windows_occurs_in (k : nat) (w r s : string) :
  occurs_in r s -> w ∈ windows k r -> w ∈ windows k s.
Proof.
  intros (pre & post & ->). rewrite !elem_of_windows. intros (i & Hi & ->).
  exists (String.length pre + i)%nat. split.
  - rewrite !length_app. lia.
  - rewrite substring_app_r, substring_app_l by exact Hi. reflexivity.
Qed.

(** Reads that occur in a sequence give no edge that the sequence itself
    does not give. *)
Lemma mult_occurs_in (reads : list string) (seq : string) (k : nat) (a b : string) :
  (forall r, r ∈ reads -> occurs_in r seq) ->
  0 < mult (edges (make_graph reads (Z.of_nat k))) a b ->
  0 < mult (edges (make_graph [seq] (Z.of_nat k))) a b.
Proof.
  intros Hocc. rewrite !mult_make_graph_windows. intros Hpos.
  destruct (filter (contributes k a b) (flat_map (windows k) reads)) as [|w ws] eqn:Hf;
    [simpl in Hpos; lia|].
  assert (Hw : w ∈ filter (contributes k a b) (flat_map (windows k) reads))
    by (rewrite Hf; left).
  apply list_elem_of_filter in Hw as [Hc Hw].
  apply list_elem_of_In, in_flat_map in Hw as (r & Hr & Hw).
  apply list_elem_of_In in Hr, Hw.
  assert (Hin : w ∈ filter (contributes k a b) (flat_map (windows k) [seq])).
  { apply list_elem_of_filter. split; [exact Hc|]. simpl. rewrite app_nil_r.
    apply (windows_occurs_in k w r seq (Hocc r Hr) Hw). }
  destruct (filter (contributes k a b) (flat_map (windows k) [seq]));
    [inversion Hin|simpl; lia].
Qed.

End Infixes.

(** ** The division of two integers *)

Lemma round_le_half (q : Q) : (inject_Z (Py.round q) <= q + (1 # 2))%Q.
Proof.
  unfold Py.round. cbv zeta.
  pose proof (Qfloor_le q) as Hlo. pose proof (Qlt_floor q) as Hhi.
  rewrite inject_Z_plus in Hhi.
  change (inject_Z 1) with 1%Q in *.
  destruct (Qcompare_spec (q - inject_Z (Qfloor q)) (1 # 2)) as [He|Hl|Hg];
    [destruct (Z.even (Qfloor q))|..];
    rewrite ?inject_Z_plus; change (inject_Z 1) with 1%Q;
    set (f := inject_Z (Qfloor q)) in *; clearbody f; lra.
Qed.

Lemma log2_quotient_le (a b : positive) : Py.log2_quotient a b <= Z.log2 (Z.pos a).
Proof.
  unfold Py.log2_quotient. pose proof (Z.log2_nonneg (Z.pos b)).
  destruct (Qle_bool _ _); lia.
Qed.

Lemma nearest_double_small (a b : positive) :
  Z.pos a < 2 ^ 1023 -> is_Some (Py.nearest_double a b).
Proof.
  intros Ha. unfold Py.nearest_double.
  set (e := Z.max (Py.log2_quotient a b - 52) (-1074)).
  set (ulp := (2 ^ e)%Q). set (q := Z.pos a # b).
  assert (He : e <= 970).
  { pose proof (log2_quotient_le a b).
    assert (Z.log2 (Z.pos a) < 1023) by (apply Z.log2_lt_pow2; lia). lia. }
  assert (Hulp : (0 < ulp)%Q) by (apply Qpower_0_lt; reflexivity).
  assert (Hulp' : (ulp <= 2 ^ 970)%Q) by (apply Qpower_le_compat_l; [exact He|discriminate]).
  assert (Hq : (q <= inject_Z (2 ^ 1023 - 1))%Q).
  { apply Qle_trans with (inject_Z (Z.pos a)).
    - unfold q, Qle. simpl. nia.
    - rewrite <- Zle_Qle. lia. }
  pose proof (round_le_half (q / ulp)) as Hr.
  apply (Qmult_le_compat_r _ _ ulp) in Hr; [|apply Qlt_le_weak, Hulp].
  assert (Hx : ((q / ulp + (1 # 2)) * ulp == q + ulp * (1 # 2))%Q) by (field; lra).
  rewrite Hx in Hr.
  set (x := (inject_Z (Py.round (q / ulp)) * ulp)%Q) in *.
  assert (Hlt : (x < 2 ^ 1024)%Q).
  { apply Qle_lt_trans with (inject_Z (2 ^ 1023 - 1) + 2 ^ 970 * (1 # 2))%Q.
    - lra.
    - vm_compute. reflexivity. }
  destruct (Qle_bool (2 ^ 1024) x) eqn:Hb; [|eauto].
  apply Qle_bool_iff in Hb. lra.
Qed.

(** The quotient overflows only from [2 ^ 1023] on. *)
Lemma true_div_overflow (a b : Z) :
  Py.true_div a b = OverflowError -> 2 ^ 1023 <= Z.abs a.
Proof.
  intros Hd. destruct (Z_lt_le_dec (Z.abs a) (2 ^ 1023)) as [Hlt|Hle]; [|exact Hle].
  exfalso. revert Hd.
  destruct b as [|b|b], a as [|a|a]; cbn [Py.true_div]; try discriminate;
    destruct (nearest_double_small a b Hlt) as [x ->]; discriminate.
Qed.

Lemma true_div_zero (a b : Z) : Py.true_div a b = ZeroDivisionError <-> b = 0.
Proof.
  split.
  - destruct b as [|b|b]; [reflexivity|..]; destruct a as [|a|a]; cbn [Py.true_div];
      try discriminate; destruct (Py.nearest_double a b); discriminate.
  - intros ->. reflexivity.
Qed.

Section MakeReads.
Variable rng : Type.
Variable randint : Z -> Z -> rng -> Z * rng.

Lemma draw_reads_occur (seq : string) (read_len : Z) (n : nat)
    (reads : list string) (st : rng) :
  (forall r, r ∈ reads -> occurs_in r seq) ->
  forall r, r ∈ (draw_reads rng randint seq read_len n reads st).1 -> occurs_in r seq.
Proof.
  revert reads st. induction n as [|n IH]; intros reads st Hreads; simpl; [exact Hreads|].
  destruct (randint 0 (Py.len seq - read_len) st) as [start st']. apply IH.
  intros r [Hr|Hr%list_elem_of_singleton]%elem_of_app; [auto|].
  subst r. apply occurs_in_slice.
Qed.

Lemma make_reads_occur (seq : string) (read_len coverage : Z) (st st' : rng)
    (reads : list string) :
  make_reads rng randint seq read_len coverage st = Value (reads, st') ->
  forall r, r ∈ reads -> occurs_in r seq.
Proof.
  unfold make_reads.
  destruct (Py.true_div (coverage * Py.len seq) read_len) as [x| |]; try discriminate.
  destruct (Py.len seq <=? read_len).
  - intros [= <- _] r Hr. apply list_elem_of_In, repeat_spec in Hr. subst r.
    apply occurs_in_refl.
  - intros Hv r Hr. injection Hv as Hv.
    match type of Hv with draw_reads _ _ _ _ ?n _ _ = _ =>
      pose proof (draw_reads_occur seq read_len n [] st) as Hd end.
    rewrite Hv in Hd. apply Hd; [intros ? H; inversion H|exact Hr].
Qed.

Hypothesis randint_range :
  forall lo hi st, lo <= hi -> lo <= (randint lo hi st).1 <= hi.

Lemma draw_reads_length (seq : string) (read_len : Z) (n : nat)
    (reads : list string) (st : rng) :
  0 < read_len < Py.len seq ->
  (forall r, r ∈ reads -> Py.len r = read_len) ->
  length (draw_reads rng randint seq read_len n reads st).1 = (length reads + n)%nat /\
  forall r, r ∈ (draw_reads rng randint seq read_len n reads st).1 -> Py.len r = read_len.
Proof.
  intros Hlen. revert reads st. induction n as [|n IH]; intros reads st Hreads; simpl.
  - split; [lia|exact Hreads].
  - pose proof (randint_range 0 (Py.len seq - read_len) st ltac:(lia)) as Hr.
    destruct (randint 0 (Py.len seq - read_len) st) as [start st']. simpl in Hr.
    destruct (IH (reads ++ [Py.slice seq start (start + read_len)])%list st') as [Hn Hall].
    + intros r [Hr'|Hr'%list_elem_of_singleton]%elem_of_app; [auto|]. subst r.
      rewrite slice_window by lia. unfold Py.len. rewrite length_substring.
      unfold Py.len in *. lia.
    + split; [|exact Hall]. rewrite Hn, List.length_app. simpl. lia.
Qed.

End MakeReads.

(** X15.  On a sequence longer than the read length, [make_reads] returns
    at least one read, every read has exactly [read_len] symbols, and
    every read occurs in the sequence; or it raises [OverflowError], which
    takes a product [coverage * len(seq)] of at least [2 ^ 1023].  The
    generator is any source of integers that keeps within the bounds it is
    given. *)
Theorem make_reads_samples (rng : Type) (randint : Z -> Z -> rng -> Z * rng)
    (seq : string) (read_len coverage : Z) (st : rng) :
  (forall lo hi st, lo <= hi -> lo <= (randint lo hi st).1 <= hi) ->
  0 < read_len < Py.len seq ->
  (make_reads rng randint seq read_len coverage st = OverflowError /\
   2 ^ 1023 <= Z.abs (coverage * Py.len seq)) \/
  (exists reads st',
      make_reads rng randint seq read_len coverage st = Value (reads, st') /\
      (1 <= length reads)%nat /\
      forall r, r ∈ reads -> Py.len r = read_len /\ occurs_in r seq).
Proof.
  intros Hrange Hlen. unfold make_reads.
  destruct (Py.true_div (coverage * Py.len seq) read_len) as [x| |] eqn:Hdiv.
  - right. destruct (Z.leb_spec (Py.len seq) read_len); [lia|].
    set (target := Z.max 1 _).
    destruct (draw_reads rng randint seq read_len (Z.to_nat target) [] st)
      as [reads st'] eqn:Hd.
    exists reads, st'. split; [reflexivity|].
    destruct (draw_reads_length rng randint Hrange seq read_len (Z.to_nat target) [] st Hlen)
      as [Hn Hall]; [intros ? Hnil; inversion Hnil|].
    rewrite Hd in Hn, Hall. simpl in Hn, Hall. split; [unfold target in Hn; lia|].
    intros r Hr. split; [apply Hall, Hr|].
    apply (draw_reads_occur rng randint seq read_len (Z.to_nat target) [] st);
      [intros ? Hnil; inversion Hnil|]. rewrite Hd. exact Hr.
  - apply true_div_zero in Hdiv. lia.
  - left. split; [reflexivity|]. apply (true_div_overflow _ _ Hdiv).
Qed.

Lemma counting_randint_range (lo hi : Z) (n : nat) :
  lo <= hi -> lo <= (counting_randint lo hi n).1 <= hi.
Proof.
  intros H. simpl. pose proof (Z.mod_pos_bound (Z.of_nat n) (hi - lo + 1) ltac:(lia)). lia.
Qed.

(** Ten symbols at coverage 2 in reads of 4: five reads are drawn; and
    two symbols at coverage [10 ^ 309] in reads of 1: the quotient is too
    large for a float. *)
Lemma make_reads_samples_witness :
  (exists reads st',
      make_reads nat counting_randint "ACGTACGTAC" 4 2 0%nat = Value (reads, st') /\
      (1 <= length reads)%nat /\
      forall r, r ∈ reads -> Py.len r = 4 /\ occurs_in r "ACGTACGTAC") /\
  make_reads nat counting_randint "AC" 1 (10 ^ 309) 0%nat = OverflowError /\
  2 ^ 1023 <= Z.abs (10 ^ 309 * Py.len "AC").
Proof.
  split.
  - destruct (make_reads_samples nat counting_randint "ACGTACGTAC" 4 2 0%nat)
      as [[Hover _]|Hreads].
    + apply counting_randint_range.
    + vm_compute. split; reflexivity.
    + vm_compute in Hover. discriminate.
    + exact Hreads.
  - destruct (make_reads_samples nat counting_randint "AC" 1 (10 ^ 309) 0%nat)
      as [Hover|(reads & st' & Hreads & _)].
    + apply counting_randint_range.
    + vm_compute. split; reflexivity.
    + exact Hover.
    + vm_compute in Hreads. discriminate.
Defined.



(** X17.  Sampling adds no edge: the graph built from the reads of
    [make_reads] has no edge that the graph built from the sequence itself
    does not have. *)
Theorem sampled_graph_within_genome (rng : Type) (randint : Z -> Z -> rng -> Z * rng)
    (seq : string) (read_len coverage : Z) (st st' : rng) (reads : list string)
    (k : nat) (a b : string) :
  make_reads rng randint seq read_len coverage st = Value (reads, st') ->
  0 < mult (edges (make_graph reads (Z.of_nat k))) a b ->
  0 < mult (edges (make_graph [seq] (Z.of_nat k))) a b.
Proof.
  intros Hm. apply mult_occurs_in.
  apply (make_reads_occur rng randint seq read_len coverage st st' reads Hm).
Qed.

Lemma sampled_graph_within_genome_witness :
  0 < mult (edges (make_graph ["ACGTACGTAC"] (Z.of_nat 3))) "CG" "GT".
Proof.
  apply (sampled_graph_within_genome nat counting_randint "ACGTACGTAC" 4 2 0%nat 5%nat
           ["ACGT"; "CGTA"; "GTAC"; "TACG"; "ACGT"] 3 "CG" "GT").
  - vm_compute. reflexivity.
  - vm_compute. reflexivity.
Defined.

(** X18.  From sampling to contigs: for k at least two, every run of k
    consecutive symbols of a contig assembled from the reads of
    [make_reads] occurs in the sampled sequence. *)
Theorem assembled_kmers_in_genome (rng : Type) (randint : Z -> Z -> rng -> Z * rng)
    (seq : string) (read_len coverage : Z) (st st' : rng) (reads : list string)
    (k : Z) (contigs : list string) (c w : string) :
  2 <= k ->
  make_reads rng randint seq read_len coverage st = Value (reads, st') ->
  walk_contigs (edges (make_graph reads k)) = Ok contigs ->
  c ∈ contigs -> occurs_in w c -> Py.len w = k ->
  occurs_in w seq.
Proof.
  intros Hk Hm Hw Hc Hocc Hlen.
  pose proof (contigs_kmers_observed reads k Hk LENGTH_CAP contigs Hw) as Hall.
  rewrite Forall_forall in Hall.
  destruct (Hall c Hc w Hocc Hlen) as (r & Hr & Hwr).
  apply (occurs_in_trans w r seq Hwr).
  apply (make_reads_occur rng randint seq read_len coverage st st' reads Hm r Hr).
Qed.

Lemma assembled_kmers_in_genome_witness : occurs_in "CGT" "ACGTACGTAC".
Proof.
  apply (assembled_kmers_in_genome nat counting_randint "ACGTACGTAC" 4 2 0%nat 5%nat
           ["ACGT"; "CGTA"; "GTAC"; "TACG"; "ACGT"] 3 ["ACGTAC"] "ACGTAC" "CGT").
  - lia.
  - vm_compute. reflexivity.
  - vm_compute. reflexivity.
  - left.
  - exists "A", "AC". reflexivity.
  - reflexivity.
Defined.

(** * The body of the FASTA file *)

Section FastaBody.

Lemma concat_cons (a : string) (l : list string) :
  String.concat "" (a :: l) = a ++ String.concat "" l.
Proof. destruct l; simpl; [rewrite append_nil_r|]; reflexivity. Qed.

(** The rest of a string after its first [c] symbols. *)
Lemma substring_take_drop (c : nat) (s : string) :
  substring 0 c s ++ substring c (String.length s - c) s = s.
Proof.
  revert s. induction c as [|c IH]; intros s.
  - rewrite Nat.sub_0_r, substring_0_all. destruct s; reflexivity.
  - destruct s as [|d s]; [reflexivity|]. cbn [substring String.length].
    rewrite append_cons, Nat.sub_succ, IH. reflexivity.
Qed.

Lemma substring_shift (c x k : nat) (s : string) :
  substring (c + x) k s = substring x k (substring c (String.length s - c) s).
Proof.
  revert s. induction c as [|c IH]; intros s.
  - rewrite Nat.sub_0_r, substring_0_all. reflexivity.
  - destruct s as [|d s]; [destruct x, k; reflexivity|].
    cbn [Nat.add substring String.length]. rewrite Nat.sub_succ. apply IH.
Qed.

Lemma chunks_concat (c m : nat) (s : string) :
  (String.length s <= c * m)%nat ->
  String.concat "" (List.map (fun j => substring (c * j) c s) (List.seq 0 m)) = s.
Proof.
  revert s. induction m as [|m IH]; intros s Hs.
  - simpl. symmetry. apply length_zero_empty. lia.
  - rewrite <- cons_seq, <- seq_shift. cbn [List.map]. rewrite List.map_map.
    rewrite concat_cons, Nat.mul_0_r.
    rewrite (map_ext _ (fun j => substring (c * j) c (substring c (String.length s - c) s))).
    2:{ intros j. replace (c * S j)%nat with (c + c * j)%nat by lia. apply substring_shift. }
    rewrite IH; [apply substring_take_drop|]. rewrite length_substring. lia.
Qed.

Lemma substring_truncate (i k : nat) (s : string) :
  substring i (Nat.min k (String.length s - i)) s = substring i k s.
Proof.
  revert i k. induction s as [|c s IH]; intros i k.
  - destruct i, k; reflexivity.
  - destruct i as [|i].
    + destruct k as [|k]; [reflexivity|]. cbn [String.length]. rewrite Nat.sub_0_r.
      cbn [Nat.min substring]. f_equal. specialize (IH 0%nat k).
      rewrite Nat.sub_0_r in IH. exact IH.
    + cbn [String.length Nat.sub substring]. apply IH.
Qed.

Lemma fasta_body_chunks (seq : string) :
  fasta_body seq =
    List.map (fun j => substring (70 * j) 70 seq)
             (List.seq 0 (Z.to_nat ((Py.len seq + 69) / 70))).
Proof.
  unfold fasta_body, Py.range_step.
  replace (Py.len seq - 0 + 70 - 1) with (Py.len seq + 69) by lia.
  rewrite List.map_map. apply map_ext_in. intros j Hj. apply in_seq in Hj.
  pose proof (len_nonneg seq) as Hn.
  assert (Hm : Z.of_nat j < (Py.len seq + 69) / 70) by lia.
  assert (Hlt : 70 * Z.of_nat j < Py.len seq).
  { pose proof (Z.mul_div_le (Py.len seq + 69) 70 ltac:(lia)). lia. }
  unfold Py.slice, Py.adjust_index.
  destruct (Z.ltb_spec (0 + Z.of_nat j * 70) 0); [lia|].
  destruct (Z.ltb_spec (0 + Z.of_nat j * 70 + 70) 0); [lia|].
  rewrite <- (substring_truncate (70 * j) 70 seq). unfold Py.len in *. f_equal; lia.
Qed.

End FastaBody.

(** X19.  The body of the FASTA file wraps the sequence without loss:
    the lines, put together in order, are the sequence, and every line
    has between 1 and 70 symbols (so there is no line for the empty
    sequence). *)
Theorem fasta_body_round_trip (seq : string) :
  String.concat "" (fasta_body seq) = seq /\
  Forall (fun line => 1 <= Py.len line <= 70) (fasta_body seq) /\
  Z.of_nat (length (fasta_body seq)) = (Py.len seq + 69) / 70.
Proof.
  rewrite fasta_body_chunks. pose proof (len_nonneg seq) as Hn.
  pose proof (Z.div_pos (Py.len seq + 69) 70 ltac:(lia) ltac:(lia)) as Hd.
  pose proof (Z.mul_div_le (Py.len seq + 69) 70 ltac:(lia)) as Hle.
  pose proof (Z.mul_succ_div_gt (Py.len seq + 69) 70 ltac:(lia)) as Hgt.
  split; [|split].
  - apply chunks_concat. unfold Py.len in *. lia.
  - apply Forall_forall. intros line Hl.
    apply list_elem_of_In, in_map_iff in Hl as (j & <- & Hj). apply in_seq in Hj.
    unfold Py.len in *. rewrite length_substring. lia.
  - rewrite length_map, length_seq. lia.
Qed.

(** * Reconstruction of a sequence without repeats *)

Section SubstringFacts.

Lemma substring_of_prefix (a m k : nat) (t : string) :
  (a + m <= k)%nat -> substring a m (substring 0 k t) = substring a m t.
Proof.
  revert a m k. induction t as [|c t IH]; intros a m k Hk.
  - destruct k; destruct a, m; reflexivity.
  - destruct k as [|k].
    + assert (a = 0 /\ m = 0)%nat as [-> ->] by lia. reflexivity.
    + cbn [substring]. destruct a as [|a].
      * destruct m as [|m]; [reflexivity|]. cbn [substring]. f_equal. apply IH. lia.
      * cbn [substring]. apply IH. lia.
Qed.

Lemma substring_substring (j k a m : nat) (s : string) :
  (a + m <= k)%nat -> substring a m (substring j k s) = substring (j + a) m s.
Proof.
  intros Hk. rewrite (substring_shift j a m s).
  replace j with (j + 0)%nat at 1 by lia. rewrite (substring_shift j 0 k s).
  apply substring_of_prefix. exact Hk.
Qed.

Lemma substring_snoc (m : nat) (s : string) :
  substring 0 m s ++ substring m 1 s = substring 0 (S m) s.
Proof.
  revert s. induction m as [|m IH]; intros [|c s]; try reflexivity.
  cbn [substring]. rewrite append_cons, IH. reflexivity.
Qed.

End SubstringFacts.

Section RepeatFree.
Variable reads : list string.
Variable seq : string.
Variable k : nat.
Variable cap : Z.

Let n := String.length seq.
Let g := edges (make_graph reads (Z.of_nat k)).

Hypothesis k_range : (2 <= k <= n)%nat.
Hypothesis no_N : Py.contains "N"%char seq = false.
Hypothesis no_repeat : NoDup (windows (k - 1) seq).
Hypothesis reads_occur : forall r, r ∈ reads -> occurs_in r seq.
Hypothesis reads_cover : forall w, w ∈ windows k seq -> exists r, r ∈ reads /\ w ∈ windows k r.
Hypothesis first_read :
  exists r0 rest, reads = r0 :: rest /\ (k <= String.length r0)%nat /\
                  substring 0 k r0 = substring 0 k seq.
Hypothesis within_cap : Py.len seq <= cap + 1.

Lemma node_at_inj (i j : nat) :
  (i + k <= n + 1)%nat -> (j + k <= n + 1)%nat ->
  node_at k seq i = node_at k seq j -> i = j.
Proof.
  intros Hi Hj Heq. rewrite NoDup_alt in no_repeat.
  apply (no_repeat i j (node_at k seq i)); unfold windows, node_at in *; fold n.
  - destruct (Nat.leb_spec (k - 1) n); [|lia].
    change (List.map ?f ?l) with (f <$> l). rewrite list_lookup_fmap.
    rewrite lookup_seq_lt by lia. reflexivity.
  - destruct (Nat.leb_spec (k - 1) n); [|lia].
    change (List.map ?f ?l) with (f <$> l). rewrite list_lookup_fmap.
    rewrite lookup_seq_lt by lia. simpl. f_equal. symmetry. exact Heq.
Qed.

Lemma length_node_at (i : nat) :
  (i + k <= n + 1)%nat -> String.length (node_at k seq i) = (k - 1)%nat.
Proof. intros Hi. unfold node_at. rewrite length_substring. fold n. lia. Qed.

Lemma edge_of_seq_window (j : nat) :
  (j + k <= n)%nat ->
  edge_of_window k (substring j k seq) = Some (node_at k seq j, node_at k seq (S j)).
Proof.
  intros Hj. unfold edge_of_window, node_at.
  rewrite (contains_substring _ _ _ _ no_N).
  rewrite !substring_substring by lia. do 3 f_equal; lia.
Qed.

(** The edges of the graph are the steps along the sequence. *)
Lemma edges_along_seq (e : string * string) :
  e ∈ flat_map (read_edges (Z.of_nat k)) reads <->
  exists j, (j + k <= n)%nat /\ e = (node_at k seq j, node_at k seq (S j)).
Proof.
  rewrite list_elem_of_In, in_flat_map. split.
  - intros (r & Hr & He). apply list_elem_of_In in Hr, He.
    rewrite read_edges_windows in He. apply list_elem_of_omap in He as (w & Hw & He).
    apply (windows_occurs_in k w r seq (reads_occur r Hr)) in Hw.
    apply elem_of_windows in Hw as (j & Hj & ->). fold n in Hj.
    exists j. split; [exact Hj|]. rewrite edge_of_seq_window in He by exact Hj. congruence.
  - intros (j & Hj & ->).
    destruct (reads_cover (substring j k seq)) as (r & Hr & Hw).
    { apply elem_of_windows. exists j. auto. }
    exists r. split; [apply list_elem_of_In; exact Hr|]. apply list_elem_of_In.
    rewrite read_edges_windows. apply list_elem_of_omap.
    exists (substring j k seq). split; [exact Hw|apply edge_of_seq_window, Hj].
Qed.

Lemma graph_along_seq :
  graph_ok (fun a b => exists j, (j + k <= n)%nat /\
                                 a = node_at k seq j /\ b = node_at k seq (S j)) g.
Proof.
  unfold g. rewrite edges_make_graph. apply add_edges_ok; [constructor|].
  apply Forall_forall. intros e He. apply edges_along_seq in He as (j & Hj & ->).
  exists j. auto.
Qed.

Lemma keys_along_seq (a : string) :
  a ∈ dict_keys g <-> exists j, (j + k <= n)%nat /\ a = node_at k seq j.
Proof.
  unfold g. rewrite edges_make_graph, dict_keys_add_edges. split.
  - intros [H|[b Hb]]; [inversion H|]. apply edges_along_seq in Hb as (j & Hj & [= -> _]).
    exists j. auto.
  - intros (j & Hj & ->). right. exists (node_at k seq (S j)).
    apply edges_along_seq. exists j. auto.
Qed.

Lemma next_along_seq (j : nat) :
  (j + k <= n)%nat -> next_node g (node_at k seq j) = Some (node_at k seq (S j)).
Proof.
  intros Hj.
  destruct (graph_ok_next g _ (node_at k seq j) graph_along_seq) as (nxt & Hn & j' & Hj' & Ha & ->).
  { apply keys_along_seq. exists j. auto. }
  apply node_at_inj in Ha; [|lia|lia]. subst j'. exact Hn.
Qed.

Lemma next_at_end : next_node g (node_at k seq (n - k + 1)) = None.
Proof.
  unfold next_node. destruct (dict_get g (node_at k seq (n - k + 1))) as [c|] eqn:Hc;
    [|reflexivity].
  assert (Hkey : node_at k seq (n - k + 1) ∈ dict_keys g)
    by (apply dict_get_is_Some; eauto).
  apply keys_along_seq in Hkey as (j & Hj & Hj').
  apply node_at_inj in Hj'; lia.
Qed.

Lemma dict_keys_add_edges_prefix (es : list (string * string)) (g0 : Graph) :
  exists more, dict_keys (add_edges g0 es) = (dict_keys g0 ++ more)%list.
Proof.
  unfold add_edges. revert g0. induction es as [|[a b] es IH]; intros g0; simpl.
  - exists []. rewrite app_nil_r. reflexivity.
  - destruct (IH (graph_incr g0 a b)) as [more Hm]. rewrite Hm.
    unfold graph_incr. rewrite dict_keys_set.
    destruct (dict_get g0 a); [eauto|]. exists ([a] ++ more)%list.
    rewrite app_assoc. reflexivity.
Qed.

Lemma first_key : exists more, dict_keys g = node_at k seq 0 :: more.
Proof.
  destruct first_read as (r0 & rest & Hreads & Hlen & Hpre).
  unfold g. rewrite edges_make_graph, Hreads. cbn [flat_map].
  rewrite read_edges_windows. unfold windows at 1.
  destruct (Nat.leb_spec k (String.length r0)); [|lia].
  replace (String.length r0 - k + 1)%nat with (S (String.length r0 - k)) by lia.
  cbn [List.seq List.map]. unfold omap. cbn [list_omap].
  rewrite Hpre, (edge_of_seq_window 0) by lia.
  cbn [app]. unfold add_edges. cbn [fold_left].
  match goal with |- context [fold_left ?f ?es ?g0] =>
    destruct (dict_keys_add_edges_prefix es g0) as [more Hm] end.
  unfold add_edges in Hm. rewrite Hm. eauto.
Qed.

(** The walk along the sequence, from the node at [j] on. *)
Lemma walk_along_seq (d j fuel : nat) (vis : gset string) r0 :
  (j + d = n - k + 1)%nat ->
  (forall i, (i <= j)%nat -> node_at k seq i ∈ vis) ->
  (forall i, (j < i)%nat -> (i + k <= n + 1)%nat -> node_at k seq i ∉ vis) ->
  walk_loop cap g fuel (node_at k seq j) (substring 0 (j + k - 1) seq) vis = Some r0 ->
  exists vis', r0 = Ok (seq, vis') /\ forall i, (i + k <= n)%nat -> node_at k seq i ∈ vis'.
Proof.
  revert j fuel vis. induction d as [|d IH]; intros j fuel vis Hd Hin Hout Hw.
  - destruct fuel as [|fuel]; [discriminate|]. rewrite walk_loop_unfold in Hw.
    replace j with (n - k + 1)%nat in * by lia. rewrite next_at_end in Hw.
    injection Hw as <-. exists vis. split.
    + replace (n - k + 1 + k - 1)%nat with n by lia. unfold n. rewrite (substring_0_all seq).
      reflexivity.
    + intros i Hi. apply Hin. lia.
  - destruct fuel as [|fuel]; [discriminate|]. rewrite walk_loop_unfold in Hw.
    rewrite next_along_seq in Hw by lia.
    assert (Hne : node_at k seq (S j) <> "").
    { intros H0. apply (f_equal String.length) in H0.
      rewrite length_node_at in H0 by lia. simpl in H0. lia. }
    rewrite (getitem_last _ Hne) in Hw.
    destruct (decide (node_at k seq (S j) ∈ vis)) as [Hv|Hv];
      [exfalso; apply (Hout (S j)); [lia|lia|exact Hv]|].
    assert (Hacc : substring 0 (j + k - 1) seq ++ last_symbol (node_at k seq (S j)) =
                   substring 0 (S j + k - 1) seq).
    { unfold last_symbol. rewrite length_node_at by lia. unfold node_at.
      rewrite substring_substring by lia.
      replace (S j + (k - 1 - 1))%nat with (j + k - 1)%nat by lia.
      rewrite substring_snoc. f_equal. lia. }
    rewrite Hacc in Hw.
    assert (Hin' : forall i, (i <= S j)%nat -> node_at k seq i ∈ {[node_at k seq (S j)]} ∪ vis).
    { intros i Hi. apply elem_of_union. destruct (decide (i = S j)) as [->|Hne'].
      - left. apply elem_of_singleton. reflexivity.
      - right. apply Hin. lia. }
    destruct (Z.gtb_spec (Py.len (substring 0 (S j + k - 1) seq)) cap) as [Hcap|Hcap].
    + injection Hw as <-. exists ({[node_at k seq (S j)]} ∪ vis). split.
      * unfold Py.len in *. rewrite length_substring in Hcap. fold n in within_cap, Hcap.
        match goal with |- Ok (substring 0 ?m seq, _) = _ => replace m with n by lia end.
        unfold n. rewrite (substring_0_all seq).
        reflexivity.
      * intros i Hi. destruct (Nat.le_gt_cases i (S j)); [apply Hin'; assumption|].
        unfold Py.len in *. rewrite length_substring in Hcap. fold n in within_cap, Hcap. lia.
    + apply (IH (S j) fuel _ ltac:(lia) Hin') in Hw; [exact Hw|].
      intros i Hi Hik [Hs%elem_of_singleton|Hv']%elem_of_union.
      * apply node_at_inj in Hs; lia.
      * apply (Hout i); [lia|exact Hik|exact Hv'].
Qed.

Lemma walk_starts_all_visited fuel starts contigs vis :
  (forall s, s ∈ starts -> s ∈ vis) ->
  walk_starts cap g fuel starts contigs vis = Some (Ok contigs).
Proof.
  induction starts as [|s starts IH]; intros Hv; simpl; [reflexivity|].
  case_decide as Hs; [|destruct Hs; apply Hv; left].
  apply IH. intros s' Hs'. apply Hv. right. exact Hs'.
Qed.

Lemma walk_repeat_free : walk_contigs_cap cap g = Ok [seq].
Proof.
  pose proof (walk_contigs_cap_starts cap g _ eq_refl) as Hw.
  destruct first_key as [more Hkeys]. rewrite Hkeys in Hw. cbn [walk_starts] in Hw.
  case_decide as H0; [apply not_elem_of_empty in H0; contradiction|].
  destruct (walk_loop_bound cap g (walk_bound g) (node_at k seq 0) (node_at k seq 0)
              ({[node_at k seq 0]} ∪ ∅) (Nat.le_refl _)) as [r0 Hr0].
  rewrite Hr0 in Hw.
  destruct (walk_along_seq (n - k + 1) 0 (walk_bound g) ({[node_at k seq 0]} ∪ ∅) r0)
    as (vis' & -> & Hvis').
  - lia.
  - intros i Hi. replace i with 0%nat by lia. apply elem_of_union. left.
    apply elem_of_singleton. reflexivity.
  - intros i Hi Hik [Hs%elem_of_singleton|Hv']%elem_of_union.
    + apply node_at_inj in Hs; lia.
    + apply not_elem_of_empty in Hv'. contradiction.
  - replace (0 + k - 1)%nat with (k - 1)%nat by lia. exact Hr0.
  - cbn beta iota in Hw. rewrite walk_starts_all_visited in Hw;
      [injection Hw as <-; reflexivity|].
    intros s Hs. assert (Hkey : s ∈ dict_keys g) by (rewrite Hkeys; right; exact Hs).
    apply keys_along_seq in Hkey as (j & Hj & ->). apply Hvis'. exact Hj.
Qed.

End RepeatFree.

Lemma n50_of_single (c : string) : n50_of [c] = Py.len c.
Proof.
  unfold n50_of. change (sorted_desc (List.map Py.len [c])) with [Py.len c].
  cbn [n50_loop Py.sum fold_right]. rewrite Z.add_0_r, half_reached.
  pose proof (len_nonneg c). destruct (Z.leb_spec (Py.len c) (2 * (0 + Py.len c))); [reflexivity|lia].
Qed.

(** X20.  Exact reconstruction.  Let [seq] have no N, at most 2,000,001
    symbols, and pairwise distinct nodes (its runs of k - 1 symbols), with
    k at least two.  If every read occurs in [seq], the reads together hold
    every window of k symbols of [seq], and the first read begins with the
    first k symbols of [seq], then the traversal returns [seq] as its only
    contig, and the assembler reports N50 = len(seq) and one contig. *)
Theorem repeat_free_reconstruction (reads : list string) (seq : string) (k : nat) :
  (2 <= k <= String.length seq)%nat ->
  Py.contains "N"%char seq = false ->
  NoDup (windows (k - 1) seq) ->
  (forall r, r ∈ reads -> occurs_in r seq) ->
  (forall w, w ∈ windows k seq -> exists r, r ∈ reads /\ w ∈ windows k r) ->
  (exists r0 rest, reads = r0 :: rest /\ (k <= String.length r0)%nat /\
                   substring 0 k r0 = substring 0 k seq) ->
  Py.len seq <= LENGTH_CAP + 1 ->
  walk_contigs (edges (make_graph reads (Z.of_nat k))) = Ok [seq] /\
  run_assembly reads (Z.of_nat k) = Ok (Py.len seq, 1).
Proof.
  intros Hk HN Hnd Hocc Hcov Hfirst Hcap.
  assert (Hw : walk_contigs (edges (make_graph reads (Z.of_nat k))) = Ok [seq])
    by (apply (walk_repeat_free reads seq k LENGTH_CAP); assumption).
  split; [exact Hw|]. unfold run_assembly. rewrite Hw. simpl.
  rewrite n50_of_single. reflexivity.
Qed.

Lemma repeat_free_reconstruction_witness :
  walk_contigs (edges (make_graph ["ACGTT"; "CGTTG"; "GTTGC"; "TTGCA"] (Z.of_nat 4))) =
    Ok ["ACGTTGCA"] /\
  run_assembly ["ACGTT"; "CGTTG"; "GTTGC"; "TTGCA"] (Z.of_nat 4) = Ok (Py.len "ACGTTGCA", 1).
Proof.
  apply (repeat_free_reconstruction ["ACGTT"; "CGTTG"; "GTTGC"; "TTGCA"] "ACGTTGCA" 4).
  - simpl. lia.
  - reflexivity.
  - apply (bool_decide_unpack _). vm_compute. exact I.
  - intros r Hr. repeat (apply elem_of_cons in Hr as [->|Hr]).
    + exists "", "GCA". reflexivity.
    + exists "A", "CA". reflexivity.
    + exists "AC", "A". reflexivity.
    + exists "ACG", "". reflexivity.
    + inversion Hr.
  - intros w Hw. vm_compute in Hw. repeat (apply elem_of_cons in Hw as [->|Hw]).
    + exists "ACGTT". split; [left|apply (bool_decide_unpack _); vm_compute; exact I].
    + exists "ACGTT". split; [left|apply (bool_decide_unpack _); vm_compute; exact I].
    + exists "CGTTG". split; [right; left|apply (bool_decide_unpack _); vm_compute; exact I].
    + exists "GTTGC". split; [do 2 right; left|apply (bool_decide_unpack _); vm_compute; exact I].
    + exists "TTGCA". split; [do 3 right; left|apply (bool_decide_unpack _); vm_compute; exact I].
    + inversion Hw.
  - exists "ACGTT", ["CGTTG"; "GTTGC"; "TTGCA"]. repeat split. simpl. lia.
  - vm_compute. discriminate.
Defined.

(** * Length of a contig and size of the graph *)

Section ContigLength.
Variable cap : Z.
Variable g : Graph.

(** A walk adds one symbol for each node of its path; the nodes before
    the last one are distinct targets of the graph. *)
Lemma walks_steps cur seq vis seq' vis' :
  walks cap g cur seq vis (Ok (seq', vis')) ->
  exists p, Py.len seq' = Py.len seq + Z.of_nat (length p) /\
            NoDup (removelast p) /\
            (forall x, x ∈ removelast p -> (x ∉ vis) /\ (x ∈ target_set g)).
Proof.
  intros H. remember (Ok (seq', vis')) as r eqn:Hr. revert seq' vis' Hr.
  induction H as [cur seq vis Hn|cur seq vis Hn|cur seq vis nxt Hn Hne Hv
                 |cur seq vis nxt Hn Hne Hv Hc|cur seq vis nxt r Hn Hne Hv Hc Hw IH];
    intros seq' vis' Hr; simplify_eq.
  - exists []. split; [simpl; lia|]. split; [constructor|]. intros x Hx. inversion Hx.
  - exists [nxt]. split; [|split; [constructor|intros x Hx; inversion Hx]].
    rewrite len_app, (len_last_symbol nxt Hne). simpl length. lia.
  - exists [nxt]. split; [|split; [constructor|intros x Hx; inversion Hx]].
    rewrite len_app, (len_last_symbol nxt Hne). simpl length. lia.
  - destruct (IH _ _ eq_refl) as (p & Hlen & Hnd & Hfresh).
    exists (nxt :: p). split; [|split].
    + rewrite Hlen, len_app, (len_last_symbol nxt Hne). simpl length. lia.
    + destruct p as [|y p]; [constructor|].
      change (removelast (nxt :: y :: p)) with (nxt :: removelast (y :: p)).
      constructor; [|exact Hnd]. intros Hin. apply Hfresh in Hin as [Hin _].
      apply Hin, elem_of_union. left. apply elem_of_singleton. reflexivity.
    + intros x Hx. destruct p as [|y p]; [inversion Hx|].
      change (removelast (nxt :: y :: p)) with (nxt :: removelast (y :: p)) in Hx.
      apply elem_of_cons in Hx as [->|Hx].
      * split; [exact Hv|]. eapply next_node_target. exact Hn.
      * apply Hfresh in Hx as [Hx Ht]. split; [|exact Ht].
        intros Hx'. apply Hx, elem_of_union. right. exact Hx'.
Qed.

Lemma length_removelast_le {A} (l : list A) : (length l <= length (removelast l) + 1)%nat.
Proof.
  induction l as [|x l IH]; [simpl; lia|]. destruct l as [|y l]; [simpl; lia|].
  change (removelast (x :: y :: l)) with (x :: removelast (y :: l)). simpl in *. lia.
Qed.

Lemma NoDup_within_size (l : list string) (X : gset string) :
  NoDup l -> (forall x, x ∈ l -> x ∈ X) -> (length l <= size X)%nat.
Proof.
  intros Hnd Hin. rewrite <- (size_list_to_set (C := gset string) l Hnd).
  apply subseteq_size. intros x Hx. apply elem_of_list_to_set in Hx. auto.
Qed.

End ContigLength.

(** X21.  No contig unrolls a cycle: a contig is its own seed, a key of
    the graph, followed by at most one symbol for each distinct target node
    of the graph and one more. *)
Theorem contig_length_within_graph (g : Graph) (contigs : list string) (c : string) :
  walk_contigs g = Ok contigs -> c ∈ contigs ->
  exists start ext,
    start ∈ dict_keys g /\ contig_from LENGTH_CAP g start c /\
    c = start ++ ext /\
    Py.len ext <= Z.of_nat (size (target_set g)) + 1.
Proof.
  intros Hw Hc. apply walk_contigs_seeded in Hw. rewrite Forall_forall in Hw.
  destruct (Hw c Hc) as (start & Hs & Hfrom).
  pose proof Hfrom as (vis0 & vis' & _ & Hl). apply walk_loop_walks in Hl.
  pose proof (walks_len _ _ _ _ _ _ _ Hl) as [(ext & Hext & _) _].
  apply walks_steps in Hl as (p & Hlen & Hnd & Hfresh).
  exists start, ext. repeat split; [exact Hs|exact Hfrom|exact Hext|].
  rewrite Hext, len_app in Hlen.
  pose proof (length_removelast_le p).
  pose proof (NoDup_within_size (removelast p) (target_set g) Hnd) as Hsz.
  specialize (Hsz ltac:(intros x Hx; apply Hfresh, Hx)). lia.
Qed.

(** The reads ACGACGT with k = 3: the graph is the cycle AC, CG, GA with a
    branch to GT, and the contig ACGAC follows the cycle once from AC. *)
Lemma contig_length_within_graph_witness :
  let g := edges (make_graph ["ACGACGT"] 3) in
  exists start ext,
    start ∈ dict_keys g /\ contig_from LENGTH_CAP g start "ACGAC" /\
    "ACGAC" = start ++ ext /\
    Py.len ext <= Z.of_nat (size (target_set g)) + 1.
Proof.
  intros g. apply (contig_length_within_graph g ["ACGAC"] "ACGAC").
  - vm_compute. reflexivity.
  - left.
Defined.
